(** * Reconciliation engine of Dynamic-Reco

    A shallow embedding of [src/services/reconciliationService.ts] and of the
    types of [src/types.ts] it uses, followed by the properties of the engine.

    Modelling conventions.
    - JavaScript strings are modelled as [string] (sequences of ASCII
      characters); [trim], [toUpperCase], [toLowerCase], the regular
      expression [/[\s.,-]/g] and [includes] are given on ASCII.
    - A field read through [?.] or tested with [!] may be [undefined]/[null]
      at run time: such fields have type [option string], [None] standing for
      the missing value.
    - The JavaScript number of ['taxable value'] is modelled as an exact
      rational ([Q]); rounding of IEEE doubles is not modelled.
    - A [Map] is an insertion-ordered association list, a [Set] of indexes an
      insertion-ordered list, [Array.push] appends at the end.
    - A [Date] is its time value: [Some t] (milliseconds since the epoch) or
      [None] for the NaN time value of an "Invalid Date". The host's time
      zone, which [toDateString] reads, is a variable of the engine. *)

From Stdlib Require Import ZArith QArith Qabs Ascii String List.
From stdpp Require Import base option list strings.

Local Open Scope string_scope.
Local Open Scope list_scope.

(* ===================================================================== *)
(** ** JavaScript string primitives (ASCII)                               *)
(* ===================================================================== *)

(** White space as matched by [String.prototype.trim] and by [\s]:
    TAB, LF, VT, FF, CR and SPACE. *)
Definition isWhiteSpace (c : ascii) : bool :=
  let n := nat_of_ascii c in
  ((9 <=? n)%nat && (n <=? 13)%nat) || (n =? 32)%nat.

Fixpoint trimStart (s : string) : string :=
  match s with
  | EmptyString => EmptyString
  | String c s' => if isWhiteSpace c then trimStart s' else s
  end.

Fixpoint trimEnd (s : string) : string :=
  match s with
  | EmptyString => EmptyString
  | String c s' =>
      let r := trimEnd s' in
      if isWhiteSpace c && String.eqb r EmptyString then EmptyString
      else String c r
  end.

Definition trim (s : string) : string := trimEnd (trimStart s).

Definition charToUpper (c : ascii) : ascii :=
  let n := nat_of_ascii c in
  if ((97 <=? n)%nat && (n <=? 122)%nat) then ascii_of_nat (n - 32) else c.

Definition charToLower (c : ascii) : ascii :=
  let n := nat_of_ascii c in
  if ((65 <=? n)%nat && (n <=? 90)%nat) then ascii_of_nat (n + 32) else c.

Fixpoint mapString (f : ascii -> ascii) (s : string) : string :=
  match s with
  | EmptyString => EmptyString
  | String c s' => String (f c) (mapString f s')
  end.

Definition toUpperCase (s : string) : string := mapString charToUpper s.
Definition toLowerCase (s : string) : string := mapString charToLower s.

(** [s.replace(/[\s.,-]/g, '')]: every character of the class is removed. *)
Definition isSpaceOrPunct (c : ascii) : bool :=
  isWhiteSpace c || Ascii.eqb c "." || Ascii.eqb c "," || Ascii.eqb c "-".

Fixpoint removeChars (p : ascii -> bool) (s : string) : string :=
  match s with
  | EmptyString => EmptyString
  | String c s' => if p c then removeChars p s' else String c (removeChars p s')
  end.

(** [s.includes(t)]: [t] occurs in [s] as a contiguous substring. *)
Fixpoint includes (s t : string) : bool :=
  String.prefix t s ||
  match s with
  | EmptyString => false
  | String _ s' => includes s' t
  end.

(** Truthiness of a string: only the empty string is falsy. *)
Definition truthy (s : string) : bool := negb (String.eqb s EmptyString).

(** [o?.trim().toUpperCase()]: [undefined] when the field is missing. *)
Definition normalized (o : option string) : option string :=
  option_map (fun s => toUpperCase (trim s)) o.

(** [v || '']. *)
Definition orEmpty (o : option string) : string :=
  match o with
  | Some s => if truthy s then s else EmptyString
  | None => EmptyString
  end.

(* ===================================================================== *)
(** ** Data model ([src/types.ts])                                        *)
(* ===================================================================== *)

(** The value of an ['Invoice date'] cell (typed [any]) as the engine sees
    it: [undefined], [null], or any other value [v] (string, number or [Date]
    from the spreadsheet reader), the latter represented by the time value of
    [new Date(v)]; an unparseable string, the empty string included, has the
    time value NaN ([None]). *)
Inductive DateCell : Type :=
| CellUndefined
| CellNull
| CellValue (t : option Z).

Record InvoiceData : Type := mkInvoiceData {
  _originalRow : list (string * string);
  _normalizedHeaders : list string;
  GSTIN : option string;
  Name : option string;
  Invoice_no : option string;
  Invoice_date : DateCell;
  taxable_value : Q
}.

Inductive Remark : Type := MATCH | PARTIALLY_MATCHED | NOT_IN_B | NOT_IN_A.

(** The string values of the [Remark] enum. *)
Definition Remark_value (r : Remark) : string :=
  match r with
  | MATCH => "Match"
  | PARTIALLY_MATCHED => "Partially Matched"
  | NOT_IN_B => "In File A only"
  | NOT_IN_A => "In File B only"
  end.

Inductive Confidence : Type := High | Low.

Record ReconciliationResult : Type := mkResult {
  key : string;
  dataA : option InvoiceData;
  dataB : option InvoiceData;
  remark : Remark;
  matchConfidence : option Confidence;
  diffs : option (list string)
}.

#[global] Instance Q_eq_dec : EqDecision Q.
Proof. solve_decision. Defined.
#[global] Instance DateCell_eq_dec : EqDecision DateCell.
Proof. solve_decision. Defined.
#[global] Instance InvoiceData_eq_dec : EqDecision InvoiceData.
Proof. solve_decision. Defined.
#[global] Instance Remark_eq_dec : EqDecision Remark.
Proof. solve_decision. Defined.
#[global] Instance Confidence_eq_dec : EqDecision Confidence.
Proof. solve_decision. Defined.

(* ===================================================================== *)
(** ** Helper predicates of the engine                                    *)
(* ===================================================================== *)

Definition createKey (item : InvoiceData) : string :=
  let gstin := orEmpty (normalized (GSTIN item)) in
  let invoiceNo := orEmpty (normalized (Invoice_no item)) in
  gstin +:+ "-" +:+ invoiceNo.

(** [new Date(v)] as a time value. [new Date(undefined)] is invalid, while
    [new Date(null)] is the epoch. *)
Definition newDate (v : DateCell) : option Z :=
  match v with
  | CellUndefined => None
  | CellNull => Some 0%Z
  | CellValue t => t
  end.

Definition msPerDay : Z := (1000 * 60 * 60 * 24)%Z.

(** [Math.ceil(x / d)] on integers, for [d > 0]. *)
Definition ceilDiv (x d : Z) : Z := (- ((- x) / d))%Z.

(** [v === null || v === undefined]. *)
Definition isNullish (v : DateCell) : bool :=
  match v with
  | CellUndefined | CellNull => true
  | CellValue _ => false
  end.

Definition areDatesClose_tol (dateA dateB : DateCell) (daysTolerance : Z) : bool :=
  if isNullish dateA || isNullish dateB then false
  else
    match newDate dateA, newDate dateB with
    | Some t1, Some t2 =>
        let diffTime := Z.abs (t2 - t1) in
        let diffDays := ceilDiv diffTime msPerDay in
        (diffDays <=? daysTolerance)%Z
    | _, _ => false
    end.

Definition areDatesClose (dateA dateB : DateCell) : bool :=
  areDatesClose_tol dateA dateB 7.

Definition Qltb (x y : Q) : bool := negb (Qle_bool y x).

Definition areValuesClose_tol (valA valB tolerance : Q) : bool :=
  Qle_bool (Qabs (valA - valB)) tolerance.

Definition areValuesClose (valA valB : Q) : bool :=
  areValuesClose_tol valA valB 1.

Definition areValuesEqual (valA valB : Q) : bool :=
  Qltb (Qabs (valA - valB)) (1 # 1000).

Definition simplify (s : string) : string :=
  removeChars isSpaceOrPunct (toLowerCase s).

Definition areNamesSimilar (nameA nameB : option string) : bool :=
  match nameA, nameB with
  | Some a, Some b =>
      if negb (truthy a) || negb (truthy b) then false
      else
        let simpleA := simplify a in
        let simpleB := simplify b in
        if negb (truthy simpleA) || negb (truthy simpleB) then false
        else includes simpleA simpleB || includes simpleB simpleA
  | _, _ => false
  end.

(** [x !== y] on values of type [string | undefined]. *)
Definition strictNe (x y : option string) : bool :=
  match x, y with
  | Some a, Some b => negb (String.eqb a b)
  | None, None => false
  | _, _ => true
  end.

(** The rendering of [Date.prototype.toDateString]: the fixed text
    "Invalid Date" for a NaN time value, and otherwise a text that names the
    local calendar day (weekday, month, day, year), here the day number. *)
Inductive DateString : Type :=
| InvalidDate
| CalendarDay (d : Z).

Definition DateString_eqb (x y : DateString) : bool :=
  match x, y with
  | InvalidDate, InvalidDate => true
  | CalendarDay a, CalendarDay b => (a =? b)%Z
  | _, _ => false
  end.

(** A [Date] is an object, and every object is truthy. *)
Definition truthyDate (d : option Z) : bool := true.

(* ===================================================================== *)
(** ** Insertion-ordered [Map] and [Set]                                  *)
(* ===================================================================== *)

Section JsMap.
Context {V : Type}.

(** [m.set(k, v)]: an existing key keeps its position, a new key goes last. *)
Fixpoint mapSet (k : string) (v : V) (m : list (string * V)) : list (string * V) :=
  match m with
  | [] => [(k, v)]
  | (k', v') :: m' =>
      if String.eqb k' k then (k, v) :: m' else (k', v') :: mapSet k v m'
  end.

Fixpoint mapGet (k : string) (m : list (string * V)) : option V :=
  match m with
  | [] => None
  | (k', v') :: m' => if String.eqb k' k then Some v' else mapGet k m'
  end.

Fixpoint mapDelete (k : string) (m : list (string * V)) : list (string * V) :=
  match m with
  | [] => []
  | (k', v') :: m' =>
      if String.eqb k' k then m' else (k', v') :: mapDelete k m'
  end.

Definition mapValues (m : list (string * V)) : list V := map snd m.
End JsMap.

(** [s.delete(i)] on a set of indexes. *)
Definition setDelete (i : nat) (s : list nat) : list nat :=
  filter (fun j => j <> i) s.

(* ===================================================================== *)
(** ** The engine                                                         *)
(* ===================================================================== *)

Record BestMatch : Type := mkBest {
  best_item : InvoiceData;
  best_index : nat;
  best_score : nat
}.

(** State of the first loop over [dataA]. *)
Record Pass1 : Type := mkPass1 {
  results1 : list ReconciliationResult;
  unmatchedA : list InvoiceData;
  mapB : list (string * InvoiceData)
}.

(** State of the second loop, over [unmatchedA]. *)
Record Pass2 : Type := mkPass2 {
  results2 : list ReconciliationResult;
  finalUnmatchedA : list InvoiceData;
  unmatchedBIndexes : list nat
}.

(** [key && key !== '-']. *)
Definition validKey (k : string) : bool := truthy k && negb (String.eqb k "-").

(** The body of [dataB.forEach], which fills the lookup. *)
Definition mapBStep (m : list (string * InvoiceData)) (item : InvoiceData)
    : list (string * InvoiceData) :=
  let k := createKey item in
  if validKey k then mapSet k item m else m.

Definition buildMapB (dataB : list InvoiceData) : list (string * InvoiceData) :=
  fold_left mapBStep dataB [].

(** The score of a candidate pair. *)
Definition scoreOf (itemA itemB : InvoiceData) : nat :=
  let namesSimilar := areNamesSimilar (Name itemA) (Name itemB) in
  let valuesClose := areValuesClose (taxable_value itemA) (taxable_value itemB) in
  let datesClose := areDatesClose (Invoice_date itemA) (Invoice_date itemB) in
  (if namesSimilar then 2 else 0) + (if valuesClose then 1 else 0)
  + (if datesClose then 1 else 0).

(** One iteration of [for (const i of unmatchedBIndexes)]. The indexes of the
    set are positions of [unmatchedB] (lemma [available_index_in_range]), so
    the first branch, where JavaScript would read [undefined], is not taken
    by the engine. *)
Definition scanCandidate (itemA : InvoiceData) (unmatchedB : list InvoiceData)
    (bestMatch : option BestMatch) (i : nat) : option BestMatch :=
  match unmatchedB !! i with
  | None => bestMatch
  | Some itemB =>
      if strictNe (normalized (GSTIN itemA)) (normalized (GSTIN itemB))
      then bestMatch
      else
        let currentScore := scoreOf itemA itemB in
        if (2 <=? currentScore)%nat then
          match bestMatch with
          | None => Some (mkBest itemB i currentScore)
          | Some b =>
              if (best_score b <? currentScore)%nat
              then Some (mkBest itemB i currentScore)
              else bestMatch
          end
        else bestMatch
  end.

Definition findBestMatch (itemA : InvoiceData) (unmatchedB : list InvoiceData)
    (indexes : list nat) : option BestMatch :=
  fold_left (scanCandidate itemA unmatchedB) indexes None.

Definition onlyInA (itemA : InvoiceData) : ReconciliationResult :=
  mkResult (createKey itemA) (Some itemA) None NOT_IN_B None None.

Definition onlyInB (itemB : InvoiceData) : ReconciliationResult :=
  mkResult (createKey itemB) None (Some itemB) NOT_IN_A None None.

Section Engine.
(** The offset of local time from UTC, in milliseconds, at a given time
    value (the host's time zone). *)
Variable LocalTZA : Z -> Z.

Definition toDateString (d : option Z) : DateString :=
  match d with
  | None => InvalidDate
  | Some t => CalendarDay ((t + LocalTZA t) / msPerDay)
  end.

Definition getDiffs (itemA itemB : InvoiceData) : list string :=
  let diffs0 : list string := [] in
  let diffs1 :=
    if strictNe (normalized (GSTIN itemA)) (normalized (GSTIN itemB))
    then diffs0 ++ ["GSTIN"] else diffs0 in
  let diffs2 :=
    if strictNe (normalized (Invoice_no itemA)) (normalized (Invoice_no itemB))
    then diffs1 ++ ["Invoice no."] else diffs1 in
  let diffs3 :=
    if negb (areNamesSimilar (Name itemA) (Name itemB))
    then diffs2 ++ ["Name"] else diffs2 in
  let d1 := newDate (Invoice_date itemA) in
  let d2 := newDate (Invoice_date itemB) in
  let diffs4 :=
    if negb (truthyDate d1) || negb (truthyDate d2)
       || negb (DateString_eqb (toDateString d1) (toDateString d2))
    then diffs3 ++ ["Invoice date"] else diffs3 in
  if negb (areValuesEqual (taxable_value itemA) (taxable_value itemB))
  then diffs4 ++ ["taxable value"] else diffs4.

(** The body of [dataA.forEach] in step 1. *)
Definition pass1Step (st : Pass1) (itemA : InvoiceData) : Pass1 :=
  let k := createKey itemA in
  if negb (truthy k) || String.eqb k "-" then st
  else
    match mapGet k (mapB st) with
    | Some itemB =>
        let valuesMatch :=
          areValuesEqual (taxable_value itemA) (taxable_value itemB) in
        let allDiffs := getDiffs itemA itemB in
        mkPass1
          (results1 st ++
             [mkResult k (Some itemA) (Some itemB)
                (if valuesMatch then MATCH else PARTIALLY_MATCHED)
                (Some High)
                (if (0 <? length allDiffs)%nat then Some allDiffs else None)])
          (unmatchedA st)
          (mapDelete k (mapB st))
    | None => mkPass1 (results1 st) (unmatchedA st ++ [itemA]) (mapB st)
    end.

Definition pass1 (dataA dataB : list InvoiceData) : Pass1 :=
  fold_left pass1Step dataA (mkPass1 [] [] (buildMapB dataB)).

(** The body of [unmatchedA.forEach] in step 2. *)
Definition pass2Step (unmatchedB : list InvoiceData) (st : Pass2)
    (itemA : InvoiceData) : Pass2 :=
  match findBestMatch itemA unmatchedB (unmatchedBIndexes st) with
  | Some bestMatch =>
      let k :=
        "fuzzy-" +:+ createKey itemA +:+ "-" +:+ createKey (best_item bestMatch) in
      mkPass2
        (results2 st ++
           [mkResult k (Some itemA) (Some (best_item bestMatch))
              PARTIALLY_MATCHED (Some Low)
              (Some (getDiffs itemA (best_item bestMatch)))])
        (finalUnmatchedA st)
        (setDelete (best_index bestMatch) (unmatchedBIndexes st))
  | None =>
      mkPass2 (results2 st) (finalUnmatchedA st ++ [itemA]) (unmatchedBIndexes st)
  end.

Definition pass2 (st1 : Pass1) : Pass2 :=
  let unmatchedB := mapValues (mapB st1) in
  fold_left (pass2Step unmatchedB) (unmatchedA st1)
    (mkPass2 (results1 st1) [] (seq 0 (length unmatchedB))).

(** [indexes.map(i => unmatchedB[i])], for indexes within [unmatchedB]. *)
Definition itemsAt (unmatchedB : list InvoiceData) (indexes : list nat)
    : list InvoiceData :=
  omap (fun i => unmatchedB !! i) indexes.

Definition reconcileFiles (fileA fileB : list InvoiceData)
    : list ReconciliationResult :=
  let st1 := pass1 fileA fileB in
  let unmatchedB := mapValues (mapB st1) in
  let st2 := pass2 st1 in
  let finalUnmatchedB := itemsAt unmatchedB (unmatchedBIndexes st2) in
  results2 st2 ++ map onlyInA (finalUnmatchedA st2)
    ++ map onlyInB finalUnmatchedB.
End Engine.

(** A host whose local time is UTC. *)
Definition utc : Z -> Z := fun _ => 0%Z.

(** Sample records. *)
Definition mkRec (g n i : string) (d : DateCell) (v : Q) : InvoiceData :=
  mkInvoiceData [] [] (Some g) (Some n) (Some i) d v.

Definition day (n : Z) : DateCell := CellValue (Some (n * msPerDay)%Z).
Definition noDate : DateCell := CellValue None.

(* ===================================================================== *)
(** ** Vocabulary of the statements                                       *)
(* ===================================================================== *)

(** The records carried by a list of outcomes, on either side. *)
Definition dataAs (rs : list ReconciliationResult) : list InvoiceData :=
  omap dataA rs.
Definition dataBs (rs : list ReconciliationResult) : list InvoiceData :=
  omap dataB rs.

(** [hasKey k l]: some record of [l] has match key [k]. *)
Definition hasKey (k : string) (l : list InvoiceData) : bool :=
  existsb (fun b => String.eqb (createKey b) k) l.

(** The records of a file that hold a valid key and are followed by no record
    with the same key. *)
Fixpoint lastPerKey (l : list InvoiceData) : list InvoiceData :=
  match l with
  | [] => []
  | b :: l' =>
      if validKey (createKey b) && negb (hasKey (createKey b) l')
      then b :: lastPerKey l'
      else lastPerKey l'
  end.

(** The records of a file that hold a valid key. *)
Definition keyed (l : list InvoiceData) : list InvoiceData :=
  filter (fun a => validKey (createKey a)) l.

(** A candidate is eligible for a record of A when the normalized GSTINs are
    equal and the score reaches the threshold. *)
Definition eligible (itemA itemB : InvoiceData) : Prop :=
  normalized (GSTIN itemA) = normalized (GSTIN itemB) /\ 2 <= scoreOf itemA itemB.

(** Entries of the B lookup: keys are pairwise distinct, and every entry is
    stored under its own, valid key. *)
Definition wfMap (m : list (string * InvoiceData)) : Prop :=
  NoDup (m.*1) /\ Forall (fun kv => createKey kv.2 = kv.1 /\ validKey kv.1) m.

(** The outcome pushed by step 1 for a pair found through the key lookup. *)
Definition exactOutcome (tz : Z -> Z) (itemA itemB : InvoiceData)
    : ReconciliationResult :=
  mkResult (createKey itemA) (Some itemA) (Some itemB)
    (if areValuesEqual (taxable_value itemA) (taxable_value itemB)
     then MATCH else PARTIALLY_MATCHED)
    (Some High)
    (if (0 <? length (getDiffs tz itemA itemB))%nat
     then Some (getDiffs tz itemA itemB) else None).

(** The outcome pushed by step 2 for a pair found by scoring. *)
Definition fuzzyOutcome (tz : Z -> Z) (itemA itemB : InvoiceData)
    : ReconciliationResult :=
  mkResult ("fuzzy-" +:+ createKey itemA +:+ "-" +:+ createKey itemB)
    (Some itemA) (Some itemB) PARTIALLY_MATCHED (Some Low)
    (Some (getDiffs tz itemA itemB)).

(** What the scan returns: the first candidate, in scan order, among those of
    highest score. *)
Definition firstBest (itemA : InvoiceData) (unmatchedB : list InvoiceData)
    (indexes : list nat) (res : option BestMatch) : Prop :=
  match res with
  | Some bm =>
      exists pre post,
        indexes = pre ++ best_index bm :: post /\
        unmatchedB !! best_index bm = Some (best_item bm) /\
        eligible itemA (best_item bm) /\
        best_score bm = scoreOf itemA (best_item bm) /\
        (forall j b, j ∈ pre -> unmatchedB !! j = Some b -> eligible itemA b ->
                     scoreOf itemA b < best_score bm) /\
        (forall j b, j ∈ post -> unmatchedB !! j = Some b -> eligible itemA b ->
                     scoreOf itemA b <= best_score bm)
  | None =>
      forall j b, j ∈ indexes -> unmatchedB !! j = Some b -> ~ eligible itemA b
  end.

(** An outcome that carries a pair: pushed by step 1 or by step 2. *)
Definition Paired (tz : Z -> Z) (r : ReconciliationResult) : Prop :=
  (exists a b, r = exactOutcome tz a b) \/
  (exists a b, r = fuzzyOutcome tz a b /\ eligible a b).

(** A name is blank when it is missing, empty, or made of white space and
    punctuation only. *)
Definition blankName (o : option string) : Prop :=
  match o with
  | None => True
  | Some s => s = "" \/ simplify s = ""
  end.

(** Sample records. *)
Definition blankRec : InvoiceData :=
  mkInvoiceData [] [] (Some "  ") (Some "Acme") (Some "") (day 1) 100.
Definition recAlpha : InvoiceData := mkRec "G1" "Alpha" "INV-1" (day 1) 100.
Definition recBeta : InvoiceData := mkRec "g1 " "Beta" "inv-1" (day 1) 100.
Definition recAcmeLtd : InvoiceData :=
  mkRec "G1" "Acme Pvt Ltd" "INV-1" (day 1) 100.
Definition recAcme : InvoiceData := mkRec "G1" "Acme" "INV-2" (day 1) 100.
Definition recAcmePvt : InvoiceData := mkRec "G1" "Acme Pvt." "INV-3" (day 1) 100.
Definition recOld : InvoiceData := mkRec "G2" "Old" "INV-9" (day 1) 10.
Definition recNew : InvoiceData := mkRec "G2" "New" "INV-9" (day 2) 20.
Definition recNoDateA : InvoiceData := mkRec "G1" "Acme" "INV-1" noDate 100.
Definition recNoDateB : InvoiceData :=
  mkRec "G1" "Acme" "INV-1" CellUndefined 100.
(** An earlier record of B with the key of [recAcmePvt]. *)
Definition recDupFirst : InvoiceData :=
  mkRec "G1" "Acme" "INV-3" (day 100) 500.


(** [hasChar c s]: the character [c] occurs in [s]. *)
Fixpoint hasChar (c : ascii) (s : string) : bool :=
  match s with
  | EmptyString => false
  | String d s' => Ascii.eqb d c || hasChar c s'
  end.

(** The two normalized components of the match key. *)
Definition keyGstin (item : InvoiceData) : string :=
  orEmpty (normalized (GSTIN item)).
Definition keyInvoiceNo (item : InvoiceData) : string :=
  orEmpty (normalized (Invoice_no item)).

(** The field names [getDiffs] can report, in the order it tests them. *)
Definition fieldNames : list string :=
  ["GSTIN"; "Invoice no."; "Name"; "Invoice date"; "taxable value"].

(** An outcome of step 1: both records have the key of the outcome. *)
Definition Exact (tz : Z -> Z) (r : ReconciliationResult) : Prop :=
  exists a b, r = exactOutcome tz a b /\ createKey b = createKey a /\
              validKey (createKey a) = true.

(** An outcome of step 2: an eligible pair whose keys differ. *)
Definition Fuzzy (tz : Z -> Z) (r : ReconciliationResult) : Prop :=
  exists a b, r = fuzzyOutcome tz a b /\ eligible a b /\
              createKey a <> createKey b.

(* ===================================================================== *)
(** ** Aggregation before reconciliation ([src/services/excelService.ts]) *)
(* ===================================================================== *)

(** [e['taxable value'] = v] on the entry of the aggregation map. *)
Definition setTaxableValue (item : InvoiceData) (v : Q) : InvoiceData :=
  mkInvoiceData (_originalRow item) (_normalizedHeaders item) (GSTIN item)
    (Name item) (Invoice_no item) (Invoice_date item) v.

(** The body of [data.forEach] in [aggregateInvoiceData]. The entry of an
    existing key is updated in place; a new key receives a copy of the
    item. *)
Definition aggregateStep (aggregationMap : list (string * InvoiceData))
    (item : InvoiceData) : list (string * InvoiceData) :=
  let gstin := orEmpty (normalized (GSTIN item)) in
  let invoiceNo := orEmpty (normalized (Invoice_no item)) in
  if negb (truthy gstin) || negb (truthy invoiceNo) then aggregationMap
  else
    let k := gstin +:+ "-" +:+ invoiceNo in
    match mapGet k aggregationMap with
    | Some existingEntry =>
        mapSet k
          (setTaxableValue existingEntry
             (taxable_value existingEntry + taxable_value item))
          aggregationMap
    | None => mapSet k item aggregationMap
    end.

Definition aggregateInvoiceData (data : list InvoiceData) : list InvoiceData :=
  if (length data =? 0)%nat then []
  else mapValues (fold_left aggregateStep data []).

(** A record is complete when both components of its key are non-empty. *)
Definition complete (item : InvoiceData) : bool :=
  truthy (keyGstin item) && truthy (keyInvoiceNo item).

(** The complete records of a list that hold the key [k], in order. *)
Definition group (k : string) (l : list InvoiceData) : list InvoiceData :=
  filter (fun x => complete x = true /\ createKey x = k) l.

(** The first record of a group, with the values of the group added up from
    left to right. *)
Definition merged (a : InvoiceData) (rest : list InvoiceData) : InvoiceData :=
  setTaxableValue a (fold_left Qplus (map taxable_value rest) (taxable_value a)).

(** Entries of the aggregation map: distinct keys, every entry complete and
    stored under its own key. *)
Definition wfAgg (m : list (string * InvoiceData)) : Prop :=
  NoDup (m.*1) /\
  Forall (fun kv => createKey kv.2 = kv.1 /\ complete kv.2 = true) m.

(* ===================================================================== *)
(** ** Summary figures of the result view ([ResultsDisplay])              *)
(* ===================================================================== *)

(** [v || 0] on a count that may be [undefined]. *)
Definition orZero (o : option nat) : nat :=
  match o with
  | Some n => n
  | None => 0
  end.

(** The reducer that counts the outcomes per remark, in an object keyed by
    the remark strings. *)
Definition summaryStep (acc : list (string * nat)) (r : ReconciliationResult)
    : list (string * nat) :=
  let k := Remark_value (remark r) in
  mapSet k (orZero (mapGet k acc) + 1) acc.

Definition summaryData (results : list ReconciliationResult)
    : list (string * nat) :=
  fold_left summaryStep results [].

(** [summary[remark] || 0], as the cards of the view read it. *)
Definition summaryCount (results : list ReconciliationResult) (x : Remark) : nat :=
  orZero (mapGet (Remark_value x) (summaryData results)).

Definition isPresent (o : option InvoiceData) : bool :=
  match o with
  | Some _ => true
  | None => false
  end.

Definition totalA (results : list ReconciliationResult) : nat :=
  length (List.filter (fun r => isPresent (dataA r)) results).

Definition totalB (results : list ReconciliationResult) : nat :=
  length (List.filter (fun r => isPresent (dataB r)) results).

(** [r.dataA?.['taxable value'] ?? 0]. *)
Definition valueOrZero (o : option InvoiceData) : Q :=
  match o with
  | Some a => taxable_value a
  | None => 0%Q
  end.

Definition matchedValue (results : list ReconciliationResult) : Q :=
  fold_left
    (fun sum r =>
       if String.eqb (Remark_value (remark r)) (Remark_value MATCH)
       then valueOrZero (dataA r) else sum)
    results 0%Q.

(** The number of outcomes with a given remark. *)
Definition countRemark (x : Remark) (rs : list ReconciliationResult) : nat :=
  length (filter (fun r => remark r = x) rs).

(** Raw rows of a file: two lines of one invoice and a row without number. *)
Definition rowPart1 : InvoiceData := mkRec "g2" "Old" "inv-9" (day 1) 10.
Definition rowPart2 : InvoiceData := mkRec "G2 " "Old Ltd" "INV-9" (day 3) 5.
Definition rowNoNumber : InvoiceData := mkRec "G3" "Nameless" " " (day 1) 7.

(* ===================================================================== *)
(** ** Header detection ([src/services/excelService.ts])                  *)
(* ===================================================================== *)

(** The cells of the sheet are modelled by their [String(cell)] rendering
    (the reader fills empty cells with the empty string). *)

Definition EXPECTED_HEADERS : list string :=
  ["gstin of supplier"; "trade/legal name"; "invoice number"; "invoice date";
   "taxable value (₹)"].

Definition normalizeHeaders (headers : list string) : list string :=
  map (fun h => toLowerCase (trim h)) headers.

(** The characters kept by [replace(/[^a-z0-9]/gi, '')]. *)
Definition isAlnum (c : ascii) : bool :=
  let n := nat_of_ascii c in
  ((48 <=? n)%nat && (n <=? 57)%nat) || ((65 <=? n)%nat && (n <=? 90)%nat)
  || ((97 <=? n)%nat && (n <=? 122)%nat).

(** The local [simplify] of [findHeaderIndex]. *)
Definition simplifyHeader (s : string) : string :=
  removeChars (fun c => negb (isAlnum c)) (toLowerCase s).

(** [l.findIndex(p)], counting from [i]; -1 when no element qualifies. *)
Fixpoint findIndexFrom {A} (p : A -> bool) (l : list A) (i : Z) : Z :=
  match l with
  | [] => (-1)%Z
  | x :: l' => if p x then i else findIndexFrom p l' (i + 1)%Z
  end.

Definition findHeaderIndex (normalizedHeaders : list string)
    (targetHeader : string) : Z :=
  let simplifiedTarget := simplifyHeader targetHeader in
  if negb (truthy simplifiedTarget) then (-1)%Z
  else
    findIndexFrom
      (fun h =>
         let simplifiedHeader := simplifyHeader h in
         truthy simplifiedHeader && String.eqb simplifiedHeader simplifiedTarget)
      normalizedHeaders 0%Z.

(** [row.every(cell => String(cell).trim() === '')]. *)
Definition isBlankRow (row : list string) : bool :=
  forallb (fun cell => String.eqb (trim cell) "") row.

(** [row.some(cell => String(cell).trim() !== '')]. *)
Definition hasContent (row : list string) : bool :=
  existsb (fun cell => negb (String.eqb (trim cell) "")) row.

(** The expected headers found in a row. *)
Definition foundHeaders (row : list string) : list string :=
  List.filter
    (fun expected =>
       negb (findHeaderIndex (normalizeHeaders row) expected =? -1)%Z)
    EXPECTED_HEADERS.

Definition MAX_HEADER_SEARCH_ROWS : nat := 10.

(** A [for] loop over the rows that stops at the first row accepted by [p]
    and yields its index and the row. *)
Fixpoint searchRows (p : list string -> bool) (rows : list (list string))
    (i : nat) : option (nat * list string) :=
  match rows with
  | [] => None
  | row :: rest => if p row then Some (i, row) else searchRows p rest (S i)
  end.

(** A row that is not blank and shows at least three expected headers. *)
Definition looksLikeHeader (row : list string) : bool :=
  negb (isBlankRow row) && (3 <=? length (foundHeaders row))%nat.

(** The search of [readExcelHeaders] for the header row: the promise is
    rejected with a message ([inl]) or resolved with the headers and the
    index of their row ([inr]). *)
Definition findHeaderRow (json : list (list string))
    : string + (list string * nat) :=
  if (length json =? 0)%nat then inl "File is empty or contains no data."
  else
    let firstRows := take (min (length json) MAX_HEADER_SEARCH_ROWS) json in
    let found :=
      match searchRows looksLikeHeader firstRows 0 with
      | Some r => Some r
      | None => searchRows hasContent firstRows 0
      end in
    match found with
    | Some (headerRowIndex, headerRow) => inr (headerRow, headerRowIndex)
    | None =>
        inl "Could not find any valid header row within the first 10 rows."
    end.

(** Sample sheet: a title row, a blank row, the header row, a data row. *)
Definition sheetTitle : list string := ["Purchase register"; ""; ""].
Definition sheetBlank : list string := [""; "  "; ""].
Definition sheetHeader : list string :=
  ["GSTIN of Supplier"; " Invoice Number"; "Taxable Value (Rs)"; "Invoice-Date"].
Definition sheetData : list string := ["G1"; "INV-1"; "100"; "2024-01-01"].

(* ===================================================================== *)
(** ** Facts on the ordered map                                          *)
(* ===================================================================== *)

Section JsMapFacts.
Context {V : Type}.
Implicit Types (m : list (string * V)) (k : string) (v : V).

Lemma mapGet_elem m k v : mapGet k m = Some v -> (k, v) ∈ m.
Proof.
  induction m as [|[k' v'] m IH]; simpl; [done|].
  destruct (String.eqb_spec k' k) as [->|Hne]; intros H.
  - injection H as ->. left.
  - right. auto.
Qed.

Lemma mapGet_None m k : mapGet k m = None <-> k ∉ m.*1.
Proof.
  induction m as [|[k' v'] m IH]; simpl.
  - split; [intros _; apply not_elem_of_nil | done].
  - destruct (String.eqb_spec k' k) as [->|Hne].
    + split; [done|]. intros H. exfalso. apply H. left.
    + rewrite IH, not_elem_of_cons. intuition congruence.
Qed.

Lemma mapDelete_perm m k v :
  mapGet k m = Some v -> m ≡ₚ (k, v) :: mapDelete k m.
Proof.
  induction m as [|[k' v'] m IH]; simpl; [done|].
  destruct (String.eqb_spec k' k) as [->|Hne]; intros H.
  - by injection H as ->.
  - rewrite (IH H) at 1. apply perm_swap.
Qed.

Lemma mapDelete_sublist m k : mapDelete k m `sublist_of` m.
Proof.
  induction m as [|[k' v'] m IH]; simpl; [done|].
  destruct (String.eqb k' k).
  - by apply sublist_cons.
  - by apply sublist_skip.
Qed.

Lemma mapSet_fresh m k v : k ∉ m.*1 -> mapSet k v m = m ++ [(k, v)].
Proof.
  induction m as [|[k' v'] m IH]; simpl; [done|].
  rewrite not_elem_of_cons. intros [Hne Hnin].
  destruct (String.eqb_spec k' k) as [->|_]; [done|].
  by rewrite IH.
Qed.

Lemma mapSet_keys_present m k v : k ∈ m.*1 -> (mapSet k v m).*1 = m.*1.
Proof.
  induction m as [|[k' v'] m IH]; csimpl.
  - intros H. by apply elem_of_nil in H.
  - destruct (String.eqb_spec k' k) as [->|Hne]; [done|].
    intros [?|Hin]%elem_of_cons; [congruence|].
    csimpl. by rewrite IH.
Qed.

Lemma mapSet_NoDup m k v : NoDup (m.*1) -> NoDup ((mapSet k v m).*1).
Proof.
  intros Hnd. destruct (decide (k ∈ m.*1)) as [Hin|Hnin].
  - by rewrite mapSet_keys_present.
  - rewrite mapSet_fresh by done. rewrite fmap_app. simpl.
    apply NoDup_app. split; [done|]. split.
    + intros x Hx ->%list_elem_of_singleton. done.
    + apply NoDup_singleton.
Qed.

Lemma mapSet_elem m k v kv : kv ∈ mapSet k v m -> kv = (k, v) \/ kv ∈ m.
Proof.
  induction m as [|[k' v'] m IH]; simpl.
  - intros ->%list_elem_of_singleton. by left.
  - destruct (String.eqb_spec k' k) as [->|Hne].
    + intros [->|H]%elem_of_cons; [by left|]. right. by right.
    + intros [->|H]%elem_of_cons; [right; left|].
      destruct (IH H) as [->|?]; [by left|]. right. by right.
Qed.

Lemma mapGet_mapSet_eq m k v : mapGet k (mapSet k v m) = Some v.
Proof.
  induction m as [|[k' v'] m IH]; simpl.
  - by rewrite String.eqb_refl.
  - destruct (String.eqb_spec k' k) as [->|Hne]; simpl.
    + by rewrite String.eqb_refl.
    + destruct (String.eqb_spec k' k); [done|]. apply IH.
Qed.

Lemma mapGet_mapSet_ne m k k' v :
  k <> k' -> mapGet k' (mapSet k v m) = mapGet k' m.
Proof.
  intros Hne. induction m as [|[k0 v0] m IH]; simpl.
  - destruct (String.eqb_spec k k'); [done|done].
  - destruct (String.eqb_spec k0 k) as [->|Hne0]; simpl.
    + destruct (String.eqb_spec k k'); [done|done].
    + destruct (String.eqb_spec k0 k'); [done|apply IH].
Qed.

(** Replacing the value of a key swaps one value of the map. *)
Lemma mapSet_values (keyOf : V -> string) `{!forall x k, Decision (keyOf x <> k)} m k v :
  NoDup (m.*1) -> Forall (fun kv => keyOf kv.2 = kv.1) m ->
  mapValues (mapSet k v m) ≡ₚ filter (fun x => keyOf x <> k) (mapValues m) ++ [v].
Proof.
  unfold mapValues.
  induction m as [|[k' v'] m IH]; simpl; intros Hnd Hall; [done|].
  apply NoDup_cons in Hnd as [Hnin Hnd].
  apply Forall_cons in Hall as [Hk Hall]. simpl in Hk.
  destruct (String.eqb_spec k' k) as [->|Hne]; simpl.
  - rewrite filter_cons_False by (intros ?; congruence).
    assert (filter (fun x => keyOf x <> k) (map snd m) = map snd m) as ->.
    { clear IH Hnd. induction m as [|[k1 v1] m IHm]; simpl; [done|].
      apply Forall_cons in Hall as [Hk1 Hall]. simpl in *.
      apply not_elem_of_cons in Hnin as [Hne1 Hnin].
      rewrite filter_cons_True by congruence. f_equal. by apply IHm. }
    by rewrite Permutation_app_comm.
  - rewrite filter_cons_True by congruence. simpl. f_equiv. by apply IH.
Qed.
End JsMapFacts.

(* ===================================================================== *)
(** ** The scan of step 2                                                 *)
(* ===================================================================== *)

Lemma strictNe_false x y : strictNe x y = false <-> x = y.
Proof.
  destruct x as [a|], y as [b|]; simpl; try (split; congruence).
  rewrite negb_false_iff, String.eqb_eq. split; congruence.
Qed.

Lemma strictNe_true x y : strictNe x y = true <-> x <> y.
Proof.
  rewrite <- strictNe_false. destruct (strictNe x y); split; congruence.
Qed.

Lemma scanCandidate_firstBest itemA unmatchedB indexes res i :
  firstBest itemA unmatchedB indexes res ->
  firstBest itemA unmatchedB (indexes ++ [i])
    (scanCandidate itemA unmatchedB res i).
Proof.
  intros Hres. unfold scanCandidate.
  destruct (unmatchedB !! i) as [itemB|] eqn:Hi.
  2:{ destruct res as [bm|]; simpl in *.
      - destruct Hres as (pre & post & -> & Hlk & Hel & Hsc & Hpre & Hpost).
        exists pre, (post ++ [i]). rewrite <- app_assoc. simpl.
        split_and!; try done.
        intros j b [Hj| ->%list_elem_of_singleton]%elem_of_app Hb; [eauto|congruence].
      - intros j b [Hj| ->%list_elem_of_singleton]%elem_of_app Hb; [eauto|congruence]. }
  assert (Hskip : ~ eligible itemA itemB ->
    firstBest itemA unmatchedB (indexes ++ [i]) res).
  { intros Hne. destruct res as [bm|]; simpl in *.
    - destruct Hres as (pre & post & -> & Hlk & Hel & Hsc & Hpre & Hpost).
      exists pre, (post ++ [i]). rewrite <- app_assoc. simpl.
      split_and!; try done.
      intros j b [Hj| ->%list_elem_of_singleton]%elem_of_app Hb He; [eauto|].
      rewrite Hi in Hb. injection Hb as ->. done.
    - intros j b [Hj| ->%list_elem_of_singleton]%elem_of_app Hb; [eauto|].
      rewrite Hi in Hb. by injection Hb as ->. }
  destruct (strictNe _ _) eqn:Hg.
  { apply Hskip. intros [Heq _]. apply strictNe_true in Hg. done. }
  apply strictNe_false in Hg.
  destruct (Nat.leb_spec 2 (scoreOf itemA itemB)) as [H2|H2].
  2:{ apply Hskip. intros [_ ?]. lia. }
  assert (Hnew : (forall j b, j ∈ indexes -> unmatchedB !! j = Some b ->
                    eligible itemA b -> scoreOf itemA b < scoreOf itemA itemB) ->
    firstBest itemA unmatchedB (indexes ++ [i])
      (Some (mkBest itemB i (scoreOf itemA itemB)))).
  { intros Hlt. simpl. exists indexes, []. split_and!; try done.
    intros j b Hj. by apply elem_of_nil in Hj. }
  destruct res as [bm|]; simpl in Hres.
  - destruct Hres as (pre & post & -> & Hlk & Hel & Hsc & Hpre & Hpost).
    destruct (Nat.ltb_spec (best_score bm) (scoreOf itemA itemB)) as [Hlt|Hge].
    + apply Hnew. intros j b Hj Hb He.
      apply elem_of_app in Hj as [Hj|Hj].
      { specialize (Hpre j b Hj Hb He). lia. }
      apply elem_of_cons in Hj as [->|Hj].
      { rewrite Hlk in Hb. injection Hb as <-. lia. }
      specialize (Hpost j b Hj Hb He). lia.
    + simpl. exists pre, (post ++ [i]). rewrite <- app_assoc. simpl.
      split_and!; try done.
      intros j b [Hj| ->%list_elem_of_singleton]%elem_of_app Hb He; [eauto|].
      rewrite Hi in Hb. injection Hb as ->. lia.
  - apply Hnew. intros j b Hj Hb He. exfalso. by apply (Hres j b).
Qed.

Lemma findBestMatch_firstBest itemA unmatchedB indexes :
  firstBest itemA unmatchedB indexes (findBestMatch itemA unmatchedB indexes).
Proof.
  unfold findBestMatch.
  induction indexes as [|i indexes IH] using rev_ind.
  - simpl. intros j b Hj. by apply elem_of_nil in Hj.
  - rewrite fold_left_app. simpl. by apply scanCandidate_firstBest.
Qed.

(* ===================================================================== *)
(** ** Invariants of the two loops                                        *)
(* ===================================================================== *)

Lemma setDelete_perm i (s : list nat) :
  NoDup s -> i ∈ s -> s ≡ₚ i :: setDelete i s.
Proof.
  unfold setDelete. induction s as [|x s IH]; intros Hnd Hin.
  - by apply elem_of_nil in Hin.
  - apply NoDup_cons in Hnd as [Hx Hnd].
    destruct (decide (x = i)) as [->|Hne].
    + rewrite filter_cons_False by (intros ?; done).
      assert (filter (fun j => j <> i) s = s) as ->; [|done].
      clear IH Hin Hnd. induction s as [|y s IHs]; [done|].
      apply not_elem_of_cons in Hx as [Hne Hx].
      rewrite filter_cons_True by done. f_equal. auto.
    + rewrite filter_cons_True by done.
      apply elem_of_cons in Hin as [?|Hin]; [congruence|].
      rewrite (IH Hnd Hin) at 1. apply perm_swap.
Qed.

Lemma itemsAt_seq_from (pre l : list InvoiceData) :
  itemsAt (pre ++ l) (seq (length pre) (length l)) = l.
Proof.
  unfold itemsAt. revert pre. induction l as [|x l IH]; intros pre; [done|].
  simpl. rewrite list_lookup_middle by done. f_equal.
  specialize (IH (pre ++ [x])). rewrite <- app_assoc in IH. simpl in IH.
  rewrite length_app in IH. simpl in IH.
  by replace (length pre + 1) with (S (length pre)) in IH by lia.
Qed.

Lemma itemsAt_seq (l : list InvoiceData) : itemsAt l (seq 0 (length l)) = l.
Proof. apply (itemsAt_seq_from [] l). Qed.

Lemma itemsAt_sublist (l : list InvoiceData) indexes :
  indexes `sublist_of` seq 0 (length l) -> itemsAt l indexes `sublist_of` l.
Proof.
  intros Hsub. rewrite <- (itemsAt_seq l) at 2. unfold itemsAt.
  induction Hsub as [|x l1 l2 _ IH|x l1 l2 _ IH]; simpl.
  - done.
  - destruct (l !! x); [by apply sublist_skip | done].
  - destruct (l !! x); [by apply sublist_cons | done].
Qed.

Lemma available_index_in_range (l : list InvoiceData) indexes i :
  indexes `sublist_of` seq 0 (length l) -> i ∈ indexes -> is_Some (l !! i).
Proof.
  intros Hsub Hin. apply lookup_lt_is_Some.
  apply (elem_of_sublist _ _ _ Hin) in Hsub.
  apply list_elem_of_In, in_seq in Hsub. lia.
Qed.

Lemma dataAs_app rs rs' : dataAs (rs ++ rs') = dataAs rs ++ dataAs rs'.
Proof. apply omap_app. Qed.

Lemma dataBs_app rs rs' : dataBs (rs ++ rs') = dataBs rs ++ dataBs rs'.
Proof. apply omap_app. Qed.

Lemma dataAs_onlyInA l : dataAs (map onlyInA l) = l.
Proof. induction l; simpl; [done|]. by f_equal. Qed.

Lemma dataBs_onlyInA l : dataBs (map onlyInA l) = [].
Proof. induction l; simpl; done. Qed.

Lemma dataAs_onlyInB l : dataAs (map onlyInB l) = [].
Proof. induction l; simpl; done. Qed.

Lemma dataBs_onlyInB l : dataBs (map onlyInB l) = l.
Proof. induction l; simpl; [done|]. by f_equal. Qed.

Lemma keyed_cons a l :
  keyed (a :: l) = (if validKey (createKey a) then [a] else []) ++ keyed l.
Proof.
  unfold keyed. rewrite filter_cons.
  destruct (decide _) as [H|H]; destruct (validKey (createKey a)); done.
Qed.

Section EngineFacts.
Variable tz : Z -> Z.

Lemma guard_validKey k :
  negb (truthy k) || String.eqb k "-" = negb (validKey k).
Proof. unfold validKey. by destruct (truthy k), (String.eqb k "-"). Qed.

Lemma pass1Step_cases st a :
  (validKey (createKey a) = false /\ pass1Step tz st a = st) \/
  (validKey (createKey a) = true /\
   exists b, mapGet (createKey a) (mapB st) = Some b /\
     pass1Step tz st a =
       mkPass1 (results1 st ++ [exactOutcome tz a b]) (unmatchedA st)
         (mapDelete (createKey a) (mapB st))) \/
  (validKey (createKey a) = true /\
   mapGet (createKey a) (mapB st) = None /\
   pass1Step tz st a = mkPass1 (results1 st) (unmatchedA st ++ [a]) (mapB st)).
Proof.
  unfold pass1Step. rewrite guard_validKey.
  destruct (validKey (createKey a)); simpl; [|by left]. right.
  destruct (mapGet (createKey a) (mapB st)) as [b|] eqn:Hget; [left|right].
  - split; [done|]. by exists b.
  - done.
Qed.

Lemma pass2Step_cases pool st a :
  (exists bm, findBestMatch a pool (unmatchedBIndexes st) = Some bm /\
     pass2Step tz pool st a =
       mkPass2 (results2 st ++ [fuzzyOutcome tz a (best_item bm)])
         (finalUnmatchedA st)
         (setDelete (best_index bm) (unmatchedBIndexes st))) \/
  (findBestMatch a pool (unmatchedBIndexes st) = None /\
   pass2Step tz pool st a =
     mkPass2 (results2 st) (finalUnmatchedA st ++ [a]) (unmatchedBIndexes st)).
Proof.
  unfold pass2Step.
  destruct (findBestMatch a pool (unmatchedBIndexes st)) as [bm|];
    [left; by exists bm | by right].
Qed.

(** Step 1 moves every keyed record of A into an outcome or into the pool
    of unmatched records, and every record it takes out of the lookup into
    an outcome. *)
Lemma pass1_fold As : forall st,
  let st' := fold_left (pass1Step tz) As st in
  dataAs (results1 st') ++ unmatchedA st'
    ≡ₚ (dataAs (results1 st) ++ unmatchedA st) ++ keyed As /\
  dataBs (results1 st') ++ mapValues (mapB st')
    ≡ₚ dataBs (results1 st) ++ mapValues (mapB st) /\
  mapB st' `sublist_of` mapB st /\
  (Forall (Paired tz) (results1 st) -> Forall (Paired tz) (results1 st')) /\
  (Forall (fun a => validKey (createKey a)) (unmatchedA st) ->
   Forall (fun a => validKey (createKey a)) (unmatchedA st')).
Proof.
  induction As as [|a As IH]; intros st; simpl.
  - split_and!; try done. unfold keyed. by rewrite filter_nil, app_nil_r.
  - specialize (IH (pass1Step tz st a)). simpl in IH.
    remember (fold_left (pass1Step tz) As (pass1Step tz st a)) as st' eqn:E.
    clear E. destruct IH as (HA & HB & Hsub & Hshape & Hval).
    rewrite keyed_cons.
    destruct (pass1Step_cases st a)
      as [[Hk Hst]|[(Hk & b & Hget & Hst)|(Hk & Hget & Hst)]].
    + rewrite Hst in HA, HB, Hsub, Hshape, Hval. rewrite Hk. simpl.
      split_and!; assumption.
    + rewrite Hst in HA, HB, Hsub, Hshape, Hval. simpl in *.
      rewrite Hk. split_and!.
      * rewrite HA, dataAs_app. simpl.
        rewrite <- !app_assoc. f_equiv. simpl. apply Permutation_middle.
      * rewrite HB, dataBs_app. simpl. rewrite <- app_assoc. f_equiv. simpl.
        unfold mapValues. rewrite (mapDelete_perm _ _ _ Hget) at 2. done.
      * etrans; [exact Hsub|]. apply mapDelete_sublist.
      * intros HP. apply Hshape. apply Forall_app. split; [done|].
        apply Forall_singleton. left. by exists a, b.
      * done.
    + rewrite Hst in HA, HB, Hsub, Hshape, Hval. simpl in *.
      rewrite Hk. split_and!; try done.
      * rewrite HA. rewrite <- !app_assoc. done.
      * intros HV. apply Hval. apply Forall_app. split; [done|].
        apply Forall_singleton. by rewrite Hk.
Qed.

Lemma findBestMatch_Some a pool indexes bm :
  findBestMatch a pool indexes = Some bm ->
  best_index bm ∈ indexes /\ pool !! best_index bm = Some (best_item bm) /\
  eligible a (best_item bm).
Proof.
  intros H. pose proof (findBestMatch_firstBest a pool indexes) as Hfb.
  rewrite H in Hfb. destruct Hfb as (pre & post & -> & Hlk & Hel & _).
  split_and!; try done. apply elem_of_app. right. left.
Qed.

(** Step 2 moves every unmatched record of A into an outcome or into the
    final unmatched list, and every index it removes into an outcome. *)
Lemma pass2_fold pool As : forall st,
  let st' := fold_left (pass2Step tz pool) As st in
  dataAs (results2 st') ++ finalUnmatchedA st'
    ≡ₚ (dataAs (results2 st) ++ finalUnmatchedA st) ++ As /\
  (NoDup (unmatchedBIndexes st) ->
     NoDup (unmatchedBIndexes st') /\
     dataBs (results2 st') ++ itemsAt pool (unmatchedBIndexes st')
       ≡ₚ dataBs (results2 st) ++ itemsAt pool (unmatchedBIndexes st)) /\
  unmatchedBIndexes st' `sublist_of` unmatchedBIndexes st /\
  (Forall (Paired tz) (results2 st) -> Forall (Paired tz) (results2 st')).
Proof.
  induction As as [|a As IH]; intros st; simpl.
  - split_and!; try done. by rewrite app_nil_r.
  - specialize (IH (pass2Step tz pool st a)). simpl in IH.
    remember (fold_left (pass2Step tz pool) As (pass2Step tz pool st a))
      as st' eqn:E.
    clear E. destruct IH as (HA & HB & Hsub & Hshape).
    destruct (pass2Step_cases pool st a) as [(bm & Hbm & Hst)|[Hnone Hst]].
    + rewrite Hst in HA, HB, Hsub, Hshape. simpl in *.
      destruct (findBestMatch_Some _ _ _ _ Hbm) as (Hin & Hlk & Hel).
      split_and!.
      * rewrite HA, dataAs_app. simpl. rewrite <- !app_assoc. f_equiv. simpl.
        apply Permutation_middle.
      * intros Hnd.
        destruct HB as [Hnd' HB]; [by apply NoDup_filter|].
        split; [done|]. rewrite HB, dataBs_app. simpl.
        rewrite <- app_assoc. f_equiv. simpl.
        unfold itemsAt.
        rewrite (setDelete_perm _ _ Hnd Hin) at 2. simpl. by rewrite Hlk.
      * etrans; [exact Hsub|]. apply sublist_filter.
      * intros HP. apply Hshape. apply Forall_app. split; [done|].
        apply Forall_singleton. right. by exists a, (best_item bm).
    + rewrite Hst in HA, HB, Hsub, Hshape. simpl in *.
      split_and!; try done.
      rewrite HA. by rewrite <- !app_assoc.
Qed.
End EngineFacts.

(* ===================================================================== *)
(** ** The lookup built from file B                                       *)
(* ===================================================================== *)

Lemma hasKey_true k l : hasKey k l = true <-> exists b, b ∈ l /\ createKey b = k.
Proof.
  unfold hasKey. rewrite existsb_exists. split.
  - intros (b & Hin & Heq). exists b. split; [by apply list_elem_of_In|].
    by apply String.eqb_eq.
  - intros (b & Hin & Heq). exists b. split; [by apply list_elem_of_In|].
    by apply String.eqb_eq.
Qed.

Lemma hasKey_false k l :
  hasKey k l = false <-> forall b, b ∈ l -> createKey b <> k.
Proof.
  destruct (hasKey k l) eqn:H.
  - apply hasKey_true in H as (b & Hin & Heq). split; [done|].
    intros Hall. by destruct (Hall b Hin).
  - split; [|done]. intros _ b Hin Heq.
    assert (hasKey k l = true) by (apply hasKey_true; eauto). congruence.
Qed.

Lemma filter_ext_Forall {A} (P Q : A -> Prop)
    `{!forall x, Decision (P x)} `{!forall x, Decision (Q x)} (l : list A) :
  Forall (fun x => P x <-> Q x) l -> filter P l = filter Q l.
Proof.
  induction 1 as [|x l Hx _ IH]; [done|].
  rewrite !filter_cons, IH. destruct (decide (P x)), (decide (Q x)); tauto.
Qed.

Lemma perm_of_eq {A} (l k : list A) : l = k -> l ≡ₚ k.
Proof. by intros ->. Qed.

Lemma wfMap_nil : wfMap [].
Proof. split; [apply NoDup_nil_2 | apply Forall_nil_2]. Qed.

Lemma wfMap_mapBStep m b : wfMap m -> wfMap (mapBStep m b).
Proof.
  intros [Hnd Hall]. unfold mapBStep.
  destruct (validKey (createKey b)) eqn:Hk; [|done]. split.
  - by apply mapSet_NoDup.
  - apply Forall_forall. intros kv [->|Hin]%mapSet_elem.
    + simpl. by rewrite Hk.
    + by apply (proj1 (Forall_forall _ _) Hall).
Qed.

Lemma wfMap_fold B : forall m, wfMap m -> wfMap (fold_left mapBStep B m).
Proof.
  induction B as [|b B IH]; intros m Hm; simpl; [done|].
  by apply IH, wfMap_mapBStep.
Qed.

Lemma wfMap_buildMapB B : wfMap (buildMapB B).
Proof. apply wfMap_fold, wfMap_nil. Qed.

Lemma wfMap_sublist m m' : m' `sublist_of` m -> wfMap m -> wfMap m'.
Proof.
  intros Hsub [Hnd Hall]. split.
  - eapply sublist_NoDup; [exact Hnd|]. by apply fmap_sublist.
  - apply Forall_forall. intros kv Hin.
    apply (proj1 (Forall_forall _ _) Hall). by eapply elem_of_sublist.
Qed.

(** The values of the lookup are the records of B that are last for their
    key, next to the earlier entries whose key B does not use. *)
Lemma fold_mapBStep_values B : forall m,
  wfMap m ->
  mapValues (fold_left mapBStep B m)
    ≡ₚ filter (fun v => ¬ hasKey (createKey v) B) (mapValues m) ++ lastPerKey B.
Proof.
  induction B as [|b B IH]; intros m Hm; simpl.
  - rewrite app_nil_r. symmetry.
    rewrite (filter_ext_Forall _ (fun _ => True)).
    + clear. induction (mapValues m) as [|x l IHl]; [done|].
      rewrite filter_cons_True by done. by f_equiv.
    + apply Forall_forall. intros x _. unfold hasKey. simpl. tauto.
  - rewrite (IH _ (wfMap_mapBStep _ b Hm)). unfold mapBStep.
    destruct Hm as [Hnd Hall].
    destruct (validKey (createKey b)) eqn:Hk; simpl.
    + rewrite (mapSet_values createKey) by
        (done || (eapply Forall_impl; [exact Hall|]; by intros ? [? _])).
      rewrite filter_app, list_filter_filter, <- app_assoc.
      f_equiv.
      { apply perm_of_eq, filter_ext_Forall, Forall_forall. intros v _.
        destruct (String.eqb_spec (createKey b) (createKey v)) as [E|E];
          simpl; [|intuition congruence].
        split; [intros [_ ?]; congruence | intros H; destruct H; exact I]. }
      rewrite filter_cons, filter_nil.
      destruct (decide _) as [H|H]; destruct (hasKey (createKey b) B);
        simpl in *; try done; exfalso; tauto.
    + f_equiv. apply perm_of_eq, filter_ext_Forall, Forall_forall.
      intros v Hv.
      destruct (String.eqb_spec (createKey b) (createKey v)) as [E|E];
        simpl; [|tauto].
      exfalso. unfold mapValues in Hv.
      apply list_elem_of_fmap in Hv as ([k v'] & -> & Hin).
      apply (proj1 (Forall_forall _ _) Hall) in Hin as [Hkey Hvalid].
      simpl in *. rewrite <- E in Hkey. rewrite <- Hkey, Hk in Hvalid. done.
Qed.

Lemma buildMapB_values B : mapValues (buildMapB B) ≡ₚ lastPerKey B.
Proof.
  unfold buildMapB. by rewrite (fold_mapBStep_values B [] wfMap_nil).
Qed.

Lemma lastPerKey_sublist B : lastPerKey B `sublist_of` B.
Proof.
  induction B as [|b B IH]; simpl; [done|].
  destruct (_ && _); [by apply sublist_skip | by apply sublist_cons].
Qed.

Lemma lastPerKey_keyed B : lastPerKey B `sublist_of` keyed B.
Proof.
  induction B as [|b B IH]; simpl; [done|]. rewrite keyed_cons.
  destruct (validKey (createKey b)); simpl; [|done].
  destruct (negb _); [by apply sublist_skip | by apply sublist_cons].
Qed.

Lemma mapGet_fold_other B k : forall m,
  hasKey k B = false ->
  mapGet k (fold_left mapBStep B m) = mapGet k m.
Proof.
  induction B as [|b B IH]; intros m Hk; simpl; [done|].
  unfold hasKey in Hk. simpl in Hk. apply orb_false_iff in Hk as [Hb HB].
  rewrite IH by done. unfold mapBStep.
  destruct (validKey (createKey b)); [|done].
  apply mapGet_mapSet_ne. by apply String.eqb_neq.
Qed.

(** Last write wins: the lookup holds, under a key, the last record of B
    with that key. *)
Lemma mapGet_buildMapB_last B1 b B3 :
  validKey (createKey b) = true -> hasKey (createKey b) B3 = false ->
  mapGet (createKey b) (buildMapB (B1 ++ b :: B3)) = Some b.
Proof.
  intros Hk Hlast. unfold buildMapB. rewrite fold_left_app. simpl.
  rewrite mapGet_fold_other by done. unfold mapBStep at 1. rewrite Hk.
  apply mapGet_mapSet_eq.
Qed.

(** With pairwise distinct keys the lookup lists the keyed records of B in
    the order of B. *)
Lemma fold_mapBStep_distinct B : forall m,
  NoDup (m.*1 ++ map createKey (keyed B)) ->
  fold_left mapBStep B m = m ++ map (fun b => (createKey b, b)) (keyed B).
Proof.
  induction B as [|b B IH]; intros m Hnd; simpl.
  - by rewrite app_nil_r.
  - rewrite keyed_cons in *. unfold mapBStep at 2.
    destruct (validKey (createKey b)); simpl in *; [|by apply IH].
    apply NoDup_app in Hnd as (Hm & Hdisj & Hnd).
    rewrite mapSet_fresh.
    2:{ intros Hin. apply (Hdisj _ Hin). left. }
    rewrite IH.
    + by rewrite <- app_assoc.
    + rewrite fmap_app. simpl. rewrite <- app_assoc. simpl.
      apply NoDup_app. split_and!; done.
Qed.

Lemma buildMapB_distinct B :
  NoDup (map createKey (keyed B)) -> mapValues (buildMapB B) = keyed B.
Proof.
  intros Hnd. unfold buildMapB. rewrite fold_mapBStep_distinct by done.
  simpl. unfold mapValues. rewrite map_map. simpl. apply map_id.
Qed.

(* ===================================================================== *)
(** ** Accounting of the records                                          *)
(* ===================================================================== *)

Section Accounting.
Variable tz : Z -> Z.

(** The outcomes are the paired outcomes of steps 1 and 2, followed by one
    outcome per left-over record of A and one per left-over record of B;
    paired and left-over records together are the keyed records of A and
    the last-per-key records of B. *)
Lemma reconcile_accounting A B :
  let st1 := pass1 tz A B in
  let pool := mapValues (mapB st1) in
  let st2 := pass2 tz st1 in
  let finalB := itemsAt pool (unmatchedBIndexes st2) in
  reconcileFiles tz A B
    = results2 st2 ++ map onlyInA (finalUnmatchedA st2) ++ map onlyInB finalB /\
  Forall (Paired tz) (results2 st2) /\
  dataAs (results2 st2) ++ finalUnmatchedA st2 ≡ₚ keyed A /\
  dataBs (results2 st2) ++ finalB ≡ₚ lastPerKey B.
Proof.
  intros st1 pool st2 finalB. split; [done|].
  destruct (pass1_fold tz A (mkPass1 [] [] (buildMapB B)))
    as (HA1 & HB1 & _ & HP1 & _).
  fold (pass1 tz A B) in HA1, HB1, HP1. fold st1 in HA1, HB1, HP1.
  simpl in HA1, HB1, HP1. fold pool in HB1.
  destruct (pass2_fold tz pool (unmatchedA st1)
              (mkPass2 (results1 st1) [] (seq 0 (length pool))))
    as (HA2 & HB2 & _ & HP2).
  simpl in HA2, HB2, HP2.
  destruct HB2 as [_ HB2]; [apply NoDup_seq|].
  rewrite itemsAt_seq in HB2.
  subst finalB st2. unfold pass2. cbv zeta. fold pool.
  split_and!.
  - apply HP2, HP1, Forall_nil_2.
  - by rewrite HA2, app_nil_r, HA1.
  - by rewrite HB2, HB1, buildMapB_values.
Qed.

Lemma dataAs_reconcileFiles A B : dataAs (reconcileFiles tz A B) ≡ₚ keyed A.
Proof.
  destruct (reconcile_accounting A B) as (-> & _ & HA & _).
  rewrite !dataAs_app, dataAs_onlyInA, dataAs_onlyInB, app_nil_r. exact HA.
Qed.

Lemma dataBs_reconcileFiles A B :
  dataBs (reconcileFiles tz A B) ≡ₚ lastPerKey B.
Proof.
  destruct (reconcile_accounting A B) as (-> & _ & _ & HB).
  rewrite !dataBs_app, dataBs_onlyInA, dataBs_onlyInB. exact HB.
Qed.

Lemma elem_of_dataAs rs a : a ∈ dataAs rs <-> exists r, r ∈ rs /\ dataA r = Some a.
Proof. apply list_elem_of_omap. Qed.

Lemma elem_of_dataBs rs b : b ∈ dataBs rs <-> exists r, r ∈ rs /\ dataB r = Some b.
Proof. apply list_elem_of_omap. Qed.

(** Every outcome is a paired outcome or carries a single record. *)
Lemma reconcile_shape A B r :
  r ∈ reconcileFiles tz A B ->
  Paired tz r \/ (exists a, r = onlyInA a) \/ (exists b, r = onlyInB b).
Proof.
  destruct (reconcile_accounting A B) as (-> & HP & _ & _).
  rewrite !elem_of_app. intros [Hr|[Hr|Hr]].
  - left. by apply (proj1 (Forall_forall _ _) HP).
  - right. left. apply list_elem_of_fmap in Hr as (a & -> & _). by exists a.
  - right. right. apply list_elem_of_fmap in Hr as (b & -> & _). by exists b.
Qed.
End Accounting.

(** X1. The match key is invalid exactly when both normalized components
    are empty; a record that lacks only one of them has a valid key. *)
Lemma validKey_createKey item :
  validKey (createKey item) = false <->
  orEmpty (normalized (GSTIN item)) = "" /\
  orEmpty (normalized (Invoice_no item)) = "".
Proof.
  unfold createKey, validKey, truthy.
  destruct (orEmpty (normalized (GSTIN item))) as [|c g];
    destruct (orEmpty (normalized (Invoice_no item))) as [|d i]; simpl.
  - done.
  - split; [|intros [_ ?]; done].
    destruct (Ascii.eqb_spec "-" "-"); [|done]. simpl. done.
  - split; [|intros [? _]; done].
    destruct (Ascii.eqb c "-"); [|done]. by destruct g.
  - split; [|intros [? _]; done].
    destruct (Ascii.eqb c "-"); [|done]. by destruct g.
Qed.

(* ===================================================================== *)
(** ** Coverage (C1, C2, C6, C8, C9)                                      *)
(* ===================================================================== *)

(** C1, as stated, fails: a record of A whose key is the sentinel ["-"]
    appears in no outcome. *)
Lemma coverage_fails_on_blank_key :
  createKey blankRec = "-" /\
  reconcileFiles utc [blankRec] [] = [] /\
  ~ (dataAs (reconcileFiles utc [blankRec] []) ≡ₚ [blankRec]).
Proof.
  split_and!; [reflexivity..|].
  intros H. apply Permutation_length in H. vm_compute in H. discriminate.
Qed.

(** C1 (amended). The records appearing as [dataA] across the outcomes are,
    as a multiset, exactly the records of A with a valid key, and the records
    appearing as [dataB] exactly the records of B that have a valid key and
    are not followed in B by a record with the same key. *)
Theorem coverage_of_keyed_records tz A B :
  dataAs (reconcileFiles tz A B) ≡ₚ keyed A /\
  dataBs (reconcileFiles tz A B) ≡ₚ lastPerKey B.
Proof. split; [apply dataAs_reconcileFiles | apply dataBs_reconcileFiles]. Qed.

Lemma keyed_all l :
  Forall (fun a => validKey (createKey a) = true) l -> keyed l = l.
Proof.
  induction 1 as [|a l Ha _ IH]; [done|].
  rewrite keyed_cons, Ha. simpl. by f_equal.
Qed.

(** Under the input contract (every record has a valid key, and no two
    records of B share a key) the outcomes cover both files exactly. *)
Corollary coverage_under_input_contract tz A B :
  Forall (fun a => validKey (createKey a) = true) A ->
  Forall (fun b => validKey (createKey b) = true) B ->
  NoDup (map createKey B) ->
  dataAs (reconcileFiles tz A B) ≡ₚ A /\ dataBs (reconcileFiles tz A B) ≡ₚ B.
Proof.
  intros HA HB Hnd. split.
  - by rewrite dataAs_reconcileFiles, keyed_all.
  - rewrite dataBs_reconcileFiles, <- buildMapB_values.
    rewrite buildMapB_distinct by (by rewrite keyed_all).
    by rewrite keyed_all.
Qed.

(** C2, as stated, fails: step 1 does not put a record with the sentinel key
    into the pool of unmatched records. *)
Lemma blank_key_not_deferred :
  validKey (createKey blankRec) = false /\
  ~ blankRec ∈ unmatchedA (pass1 utc [blankRec] []).
Proof.
  split; [reflexivity|]. vm_compute. intros H. by apply elem_of_nil in H.
Qed.

(** C2 (amended). Step 1 skips a record of A whose match key is invalid: the
    state of the loop is unchanged, the record does not enter the pool of
    unmatched records, and no outcome carries it. *)
Theorem pass1_skips_invalid_key tz A B a :
  validKey (createKey a) = false ->
  (forall st, pass1Step tz st a = st) /\
  (a ∉ unmatchedA (pass1 tz A B)) /\
  (forall r, r ∈ reconcileFiles tz A B -> dataA r <> Some a).
Proof.
  intros Hk. split_and!.
  - intros st. destruct (pass1Step_cases tz st a) as [[_ ?]|[(E & _)|(E & _)]];
      [done|congruence..].
  - intros Hin.
    destruct (pass1_fold tz A (mkPass1 [] [] (buildMapB B)))
      as (_ & _ & _ & _ & Hval).
    specialize (Hval (Forall_nil_2 _)).
    apply (proj1 (Forall_forall _ _) Hval) in Hin. by rewrite Hk in Hin.
  - intros r Hr Hd.
    assert (a ∈ dataAs (reconcileFiles tz A B)) as Hin
      by (apply elem_of_dataAs; eauto).
    rewrite dataAs_reconcileFiles in Hin.
    apply list_elem_of_filter in Hin as [Hv _]. by rewrite Hk in Hv.
Qed.

Lemma pass1_skips_invalid_key_witness :
  (forall st, pass1Step utc st blankRec = st) /\
  (blankRec ∉ unmatchedA (pass1 utc [blankRec; recAlpha] [recBeta])) /\
  (forall r, r ∈ reconcileFiles utc [blankRec; recAlpha] [recBeta] ->
             dataA r <> Some blankRec).
Proof.
  apply (pass1_skips_invalid_key utc [blankRec; recAlpha] [recBeta] blankRec).
  reflexivity.
Defined.

(** C6. No record is used twice: the records appearing as [dataA] form a
    sub-multiset of A and those appearing as [dataB] a sub-multiset of B; in
    particular, when the records of a file are pairwise distinct, so are the
    records the outcomes carry on that side. *)
Theorem no_record_used_twice tz A B :
  dataAs (reconcileFiles tz A B) ⊆+ A /\
  dataBs (reconcileFiles tz A B) ⊆+ B /\
  (NoDup A -> NoDup (dataAs (reconcileFiles tz A B))) /\
  (NoDup B -> NoDup (dataBs (reconcileFiles tz A B))).
Proof.
  assert (HA : keyed A `sublist_of` A) by apply sublist_filter.
  pose proof (lastPerKey_sublist B) as HB.
  split_and!.
  - rewrite dataAs_reconcileFiles. by apply sublist_submseteq.
  - rewrite dataBs_reconcileFiles. by apply sublist_submseteq.
  - intros Hnd. rewrite dataAs_reconcileFiles. by eapply sublist_NoDup.
  - intros Hnd. rewrite dataBs_reconcileFiles. by eapply sublist_NoDup.
Qed.

Lemma no_record_used_twice_witness :
  NoDup (dataAs (reconcileFiles utc [recAcmeLtd; recAlpha] [recAcme; recBeta]))
  /\ NoDup (dataBs (reconcileFiles utc [recAcmeLtd; recAlpha] [recAcme; recBeta])).
Proof.
  destruct (no_record_used_twice utc [recAcmeLtd; recAlpha] [recAcme; recBeta])
    as (_ & _ & HA & HB).
  split; [apply HA | apply HB]; apply NoDup_ListNoDup;
    repeat constructor; simpl; intuition discriminate.
Defined.

Lemma filter_key_absent (m : list (string * InvoiceData)) k :
  k ∉ m.*1 -> Forall (fun kv => createKey kv.2 = kv.1 /\ validKey kv.1) m ->
  filter (fun x => createKey x = k) (map snd m) = [].
Proof.
  induction m as [|[k1 v1] m IH]; csimpl; intros Hnin Hall; [done|].
  apply Forall_cons in Hall as [[Hk1 _] Hall]. simpl in Hk1.
  apply not_elem_of_cons in Hnin as [Hne Hnin].
  rewrite filter_cons_False by congruence. by apply IH.
Qed.

Lemma filter_key_mapValues (m : list (string * InvoiceData)) k v :
  wfMap m -> mapGet k m = Some v ->
  filter (fun x => createKey x = k) (mapValues m) = [v].
Proof.
  unfold mapValues. intros [Hnd Hall].
  induction m as [|[k' v'] m IH]; csimpl; [done|].
  apply NoDup_cons in Hnd as [Hnin Hnd].
  apply Forall_cons in Hall as [[Hk _] Hall]. simpl in Hk.
  destruct (String.eqb_spec k' k) as [->|Hne]; intros Hget.
  - injection Hget as ->. rewrite filter_cons_True by done. f_equal.
    by apply filter_key_absent.
  - rewrite filter_cons_False by congruence. by apply IH.
Qed.

(** C8. Two records of B with the same valid key: the lookup keeps the later
    one (last write wins), the engine returns outcomes all the same, exactly
    one outcome carries a record of B with that key, and it is the later
    record; the overwritten record appears in no outcome. *)
Theorem duplicate_key_overwrites tz A B1 b1 B2 b2 B3 :
  createKey b1 = createKey b2 ->
  validKey (createKey b2) = true ->
  hasKey (createKey b2) B3 = false ->
  let B := B1 ++ b1 :: B2 ++ b2 :: B3 in
  mapGet (createKey b1) (buildMapB B) = Some b2 /\
  filter (fun b => createKey b = createKey b1) (dataBs (reconcileFiles tz A B))
    = [b2] /\
  (b1 <> b2 -> b1 ∉ dataBs (reconcileFiles tz A B)).
Proof.
  intros Hkey Hvalid Hlast B.
  assert (Hget : mapGet (createKey b1) (buildMapB B) = Some b2).
  { subst B. rewrite Hkey.
    replace (B1 ++ b1 :: B2 ++ b2 :: B3) with ((B1 ++ b1 :: B2) ++ b2 :: B3)
      by (by rewrite <- app_assoc).
    by apply mapGet_buildMapB_last. }
  assert (Hfil : filter (fun b => createKey b = createKey b1)
                   (dataBs (reconcileFiles tz A B)) = [b2]).
  { apply Permutation_singleton_r.
    rewrite dataBs_reconcileFiles, <- buildMapB_values.
    rewrite (filter_key_mapValues _ _ b2); [done| |done].
    apply wfMap_buildMapB. }
  split_and!; [done..|].
  intros Hne Hin.
  assert (b1 ∈ [b2]) as Hin'%list_elem_of_singleton; [|done].
  rewrite <- Hfil. apply list_elem_of_filter. done.
Qed.

Lemma duplicate_key_overwrites_witness :
  let B := [recAcme] ++ recOld :: [recAlpha] ++ recNew :: [] in
  mapGet (createKey recOld) (buildMapB B) = Some recNew /\
  filter (fun b => createKey b = createKey recOld)
    (dataBs (reconcileFiles utc [recAcmeLtd] B)) = [recNew] /\
  (recOld <> recNew -> recOld ∉ dataBs (reconcileFiles utc [recAcmeLtd] B)).
Proof.
  apply (duplicate_key_overwrites utc [recAcmeLtd] [recAcme] recOld [recAlpha]
           recNew []); reflexivity.
Defined.

(** C9, as stated, fails: a record of A with the sentinel key is consumed by
    neither step and still yields no outcome. *)
Lemma blank_key_yields_no_outcome :
  blankRec ∈ [blankRec] /\
  ~ (exists r, r ∈ reconcileFiles utc [blankRec] [] /\ dataA r = Some blankRec).
Proof.
  split; [left|]. intros (r & Hr & _). vm_compute in Hr.
  by apply elem_of_nil in Hr.
Qed.

(** C9 (amended). The outcomes are the paired outcomes followed by one
    outcome per left-over record: the keyed records of A that no pair uses
    each give an outcome with [dataA] alone and the remark "In File A only",
    and the last-per-key records of B that no pair uses each give an outcome
    with [dataB] alone and the remark "In File B only". *)
Theorem residual_outcomes tz A B :
  exists paired finalA finalB,
    reconcileFiles tz A B
      = paired ++ map onlyInA finalA ++ map onlyInB finalB /\
    Forall (fun r => is_Some (dataA r) /\ is_Some (dataB r)) paired /\
    dataAs paired ++ finalA ≡ₚ keyed A /\
    dataBs paired ++ finalB ≡ₚ lastPerKey B /\
    Forall (fun r => exists a, a ∈ finalA /\ dataA r = Some a /\ dataB r = None /\
                     Remark_value (remark r) = "In File A only")
      (map onlyInA finalA) /\
    Forall (fun r => exists b, b ∈ finalB /\ dataA r = None /\ dataB r = Some b /\
                     Remark_value (remark r) = "In File B only")
      (map onlyInB finalB).
Proof.
  destruct (reconcile_accounting tz A B) as (Heq & HP & HA & HB).
  eexists _, _, _. split; [exact Heq|]. split_and!; try done.
  - eapply Forall_impl; [exact HP|].
    intros r [(a & b & ->)|(a & b & -> & _)]; by split.
  - apply Forall_forall. intros r (a & -> & Ha)%list_elem_of_fmap.
    by exists a.
  - apply Forall_forall. intros r (b & -> & Hb)%list_elem_of_fmap.
    by exists b.
Qed.

(* ===================================================================== *)
(** ** Remarks and field differences (C3, C7)                             *)
(* ===================================================================== *)

Lemma getDiffs_nil tz a b :
  getDiffs tz a b = [] ->
  areValuesEqual (taxable_value a) (taxable_value b) = true.
Proof.
  unfold getDiffs.
  destruct (areValuesEqual (taxable_value a) (taxable_value b)); [done|].
  simpl. intros H. apply app_eq_nil in H as [_ H]. discriminate.
Qed.

(** C3, as stated, fails: a pair found through the key lookup with equal
    taxable values is remarked [MATCH] although its names differ, so that
    its diff set is not empty. *)
Lemma match_with_nonempty_diffs :
  reconcileFiles utc [recAlpha] [recBeta]
  = [mkResult "G1-INV-1" (Some recAlpha) (Some recBeta) MATCH (Some High)
       (Some ["Name"])].
Proof. reflexivity. Qed.

(** C3 (amended). In an outcome that carries both records, a pair of high
    confidence is remarked [MATCH] when the taxable values are equal within
    0.001 and [PARTIALLY_MATCHED] otherwise, whatever the other fields; so a
    high-confidence pair with an empty diff set is a [MATCH]. A pair of low
    confidence is always [PARTIALLY_MATCHED]. *)
Theorem remark_of_paired_outcome tz A B r a b :
  r ∈ reconcileFiles tz A B ->
  dataA r = Some a -> dataB r = Some b ->
  (matchConfidence r = Some High /\
   remark r = (if areValuesEqual (taxable_value a) (taxable_value b)
               then MATCH else PARTIALLY_MATCHED) /\
   diffs r = (if (0 <? length (getDiffs tz a b))%nat
              then Some (getDiffs tz a b) else None) /\
   (diffs r = None -> remark r = MATCH))
  \/
  (matchConfidence r = Some Low /\ remark r = PARTIALLY_MATCHED /\
   diffs r = Some (getDiffs tz a b)).
Proof.
  intros Hr HA HB.
  destruct (reconcile_shape tz A B r Hr)
    as [[(a' & b' & ->)|(a' & b' & -> & _)]|[(a' & ->)|(b' & ->)]];
    simpl in *; try discriminate.
  - injection HA as ->. injection HB as ->. left. split_and!; try done.
    destruct (getDiffs tz a b) as [|d ds] eqn:Hd; simpl; [|done].
    intros _. by rewrite (getDiffs_nil tz a b Hd).
  - injection HA as ->. injection HB as ->. by right.
Qed.

Lemma remark_of_paired_outcome_witness :
  let r := mkResult "G1-INV-1" (Some recAlpha) (Some recBeta) MATCH (Some High)
             (Some ["Name"]) in
  (matchConfidence r = Some High /\
   remark r = (if areValuesEqual (taxable_value recAlpha) (taxable_value recBeta)
               then MATCH else PARTIALLY_MATCHED) /\
   diffs r = (if (0 <? length (getDiffs utc recAlpha recBeta))%nat
              then Some (getDiffs utc recAlpha recBeta) else None) /\
   (diffs r = None -> remark r = MATCH))
  \/
  (matchConfidence r = Some Low /\ remark r = PARTIALLY_MATCHED /\
   diffs r = Some (getDiffs utc recAlpha recBeta)).
Proof.
  intros r.
  apply (remark_of_paired_outcome utc [recAlpha] [recBeta] r recAlpha recBeta);
    [vm_compute; left | reflexivity | reflexivity].
Defined.

(** X10. The date entry of the diff set: it is present exactly when the two
    renderings of [toDateString] differ. *)
Lemma date_in_diffs_iff tz a b :
  "Invoice date" ∈ getDiffs tz a b <->
  toDateString tz (newDate (Invoice_date a))
    <> toDateString tz (newDate (Invoice_date b)).
Proof.
  assert (Heqb : forall x y, DateString_eqb x y = true <-> x = y).
  { intros [|x] [|y]; simpl; try (split; congruence).
    rewrite Z.eqb_eq. split; congruence. }
  unfold getDiffs, truthyDate. simpl.
  destruct (DateString_eqb _ _) eqn:Hd.
  - apply Heqb in Hd. split; [|done]. intros Hin. exfalso.
    destruct (strictNe (normalized (GSTIN a)) _),
      (strictNe (normalized (Invoice_no a)) _),
      (areNamesSimilar _ _), (areValuesEqual _ _); simpl in Hin;
      apply list_elem_of_In in Hin; simpl in Hin; intuition discriminate.
  - split; [intros _ E; apply Heqb in E; congruence|]. intros _.
    destruct (strictNe (normalized (GSTIN a)) _),
      (strictNe (normalized (Invoice_no a)) _),
      (areNamesSimilar _ _), (areValuesEqual _ _); simpl;
      apply list_elem_of_In; simpl; tauto.
Qed.

(** C7, at the failing input: two records whose dates are both unusable (an
    unparseable cell and a missing one) get an empty diff set, without
    "Invoice date". *)
Theorem unusable_dates_are_not_reported tz :
  newDate (Invoice_date recNoDateA) = None /\
  newDate (Invoice_date recNoDateB) = None /\
  getDiffs tz recNoDateA recNoDateB = [] /\
  ~ "Invoice date" ∈ getDiffs tz recNoDateA recNoDateB.
Proof.
  assert (E : getDiffs tz recNoDateA recNoDateB = []) by reflexivity.
  split_and!; try done. rewrite E. apply not_elem_of_nil.
Qed.

(* ===================================================================== *)
(** ** The fuzzy pass (C4, C5)                                            *)
(* ===================================================================== *)

(** C4. An outcome of low confidence carries two records whose normalized
    GSTINs are equal; records whose normalized GSTINs differ are never
    paired by the fuzzy pass. *)
Theorem fuzzy_pairs_share_gstin tz A B r :
  r ∈ reconcileFiles tz A B ->
  matchConfidence r = Some Low ->
  exists a b, dataA r = Some a /\ dataB r = Some b /\
    normalized (GSTIN a) = normalized (GSTIN b).
Proof.
  intros Hr Hlow.
  destruct (reconcile_shape tz A B r Hr)
    as [[(a & b & ->)|(a & b & -> & [Hg _])]|[(a & ->)|(b & ->)]];
    simpl in *; try discriminate.
  by exists a, b.
Qed.

Lemma fuzzy_pairs_share_gstin_witness :
  exists a b,
    dataA (fuzzyOutcome utc recAcmeLtd recAcme) = Some a /\
    dataB (fuzzyOutcome utc recAcmeLtd recAcme) = Some b /\
    normalized (GSTIN a) = normalized (GSTIN b).
Proof.
  apply (fuzzy_pairs_share_gstin utc [recAcmeLtd] [recAcme]);
    [vm_compute; left | reflexivity].
Defined.

(** C5, as stated, fails: when two records of B share a key, the later one
    takes the place of the earlier one in the lookup, and so in the scan.
    Here [recAcme] and [recAcmePvt] are both eligible with the highest
    score, [recAcme] comes first in B, and the engine selects
    [recAcmePvt]. *)
Lemma tie_not_broken_by_order_of_B :
  let B := [recDupFirst; recAcme; recAcmePvt] in
  eligible recAcmeLtd recAcme /\ eligible recAcmeLtd recAcmePvt /\
  scoreOf recAcmeLtd recDupFirst = 2 /\
  scoreOf recAcmeLtd recAcme = 4 /\ scoreOf recAcmeLtd recAcmePvt = 4 /\
  mapValues (mapB (pass1 utc [recAcmeLtd] B)) = [recAcmePvt; recAcme] /\
  findBestMatch recAcmeLtd [recAcmePvt; recAcme] [0; 1]
  = Some (mkBest recAcmePvt 0 4) /\
  recAcmePvt <> recAcme /\
  reconcileFiles utc [recAcmeLtd] B
  = [fuzzyOutcome utc recAcmeLtd recAcmePvt; onlyInB recAcme].
Proof.
  simpl. split_and!; try reflexivity; try discriminate;
    (split; [reflexivity | vm_compute; lia]).
Qed.

(** C5 (amended). The score of a candidate is 2 for similar names plus 1 for
    close values plus 1 for close dates. When step 2 reaches a record of A,
    the indexes still available are in increasing order, the order of the
    pool of unmatched records of B, which is the order of the lookup built
    from B; the scan returns a candidate exactly when some available
    candidate with equal normalized GSTIN scores 2 or more, and then the one
    of highest score, the first in scan order among those of highest score;
    that candidate is paired with the record and leaves the available set.
    The pool lists records of B in the order of B when the valid keys of B
    are pairwise distinct. *)
Theorem fuzzy_pass_selects_first_best tz A B processed itemA rest :
  let st1 := pass1 tz A B in
  let pool := mapValues (mapB st1) in
  let st := fold_left (pass2Step tz pool) processed
              (mkPass2 (results1 st1) [] (seq 0 (length pool))) in
  let avail := unmatchedBIndexes st in
  unmatchedA st1 = processed ++ itemA :: rest ->
  (forall b,
     scoreOf itemA b
     = 2 * (if areNamesSimilar (Name itemA) (Name b) then 1 else 0)
       + 1 * (if areValuesClose (taxable_value itemA) (taxable_value b)
              then 1 else 0)
       + 1 * (if areDatesClose (Invoice_date itemA) (Invoice_date b)
              then 1 else 0)) /\
  avail `sublist_of` seq 0 (length pool) /\
  pool `sublist_of` mapValues (buildMapB B) /\
  firstBest itemA pool avail (findBestMatch itemA pool avail) /\
  pass2Step tz pool st itemA
    = match findBestMatch itemA pool avail with
      | Some bm =>
          mkPass2 (results2 st ++ [fuzzyOutcome tz itemA (best_item bm)])
            (finalUnmatchedA st) (setDelete (best_index bm) avail)
      | None => mkPass2 (results2 st) (finalUnmatchedA st ++ [itemA]) avail
      end /\
  (NoDup (map createKey (keyed B)) -> pool `sublist_of` B).
Proof.
  intros st1 pool st avail _.
  assert (Hpool : pool `sublist_of` mapValues (buildMapB B)).
  { destruct (pass1_fold tz A (mkPass1 [] [] (buildMapB B)))
      as (_ & _ & Hsub & _).
    fold (pass1 tz A B) in Hsub. fold st1 in Hsub. simpl in Hsub.
    apply (fmap_sublist snd _ _ Hsub). }
  split_and!.
  - intros b. unfold scoreOf.
    by destruct (areNamesSimilar _ _), (areValuesClose _ _),
      (areDatesClose _ _).
  - destruct (pass2_fold tz pool processed
                (mkPass2 (results1 st1) [] (seq 0 (length pool))))
      as (_ & _ & Hsub & _). exact Hsub.
  - exact Hpool.
  - apply findBestMatch_firstBest.
  - unfold pass2Step. fold avail. by destruct (findBestMatch itemA pool avail).
  - intros Hnd. etrans; [exact Hpool|].
    rewrite buildMapB_distinct by done. apply sublist_filter.
Qed.

Lemma fuzzy_pass_selects_first_best_witness :
  let pool := [recAcme; recAcmePvt] in
  let st := mkPass2 [] [] [0; 1] in
  (forall b,
     scoreOf recAcmeLtd b
     = 2 * (if areNamesSimilar (Name recAcmeLtd) (Name b) then 1 else 0)
       + 1 * (if areValuesClose (taxable_value recAcmeLtd) (taxable_value b)
              then 1 else 0)
       + 1 * (if areDatesClose (Invoice_date recAcmeLtd) (Invoice_date b)
              then 1 else 0)) /\
  [0; 1] `sublist_of` [0; 1] /\
  pool `sublist_of` mapValues (buildMapB [recAcme; recAcmePvt]) /\
  firstBest recAcmeLtd pool [0; 1] (Some (mkBest recAcme 0 4)) /\
  pass2Step utc pool st recAcmeLtd
    = mkPass2 [fuzzyOutcome utc recAcmeLtd recAcme] [] [1] /\
  (NoDup (map createKey (keyed [recAcme; recAcmePvt])) ->
   pool `sublist_of` [recAcme; recAcmePvt]).
Proof.
  apply (fuzzy_pass_selects_first_best utc [recAcmeLtd] [recAcme; recAcmePvt]
           [] recAcmeLtd []).
  reflexivity.
Defined.

(* ===================================================================== *)
(** ** Name similarity (C10)                                              *)
(* ===================================================================== *)

(** C10. The name-similarity predicate is false as soon as one of the two
    names is blank: missing, empty, or empty once lower-cased and stripped of
    white space and punctuation. *)
Theorem blank_name_is_never_similar nameA nameB :
  blankName nameA \/ blankName nameB ->
  areNamesSimilar nameA nameB = false.
Proof.
  unfold areNamesSimilar, blankName, truthy.
  destruct nameA as [a|], nameB as [b|]; try done.
  intros [[Ha|Ha]|[Hb|Hb]]; try rewrite Ha; try rewrite Hb; simpl;
    try done.
  - by destruct (String.eqb a ""), (String.eqb b "").
  - by rewrite orb_true_r.
  - destruct (String.eqb a ""), (String.eqb b ""); simpl; try done.
    by rewrite orb_true_r.
Qed.

Lemma blank_name_is_never_similar_witness :
  areNamesSimilar (Some " .,- ") (Some "Acme") = false.
Proof.
  apply blank_name_is_never_similar. left. right. reflexivity.
Defined.

(* ===================================================================== *)
(** ** The engine on small inputs                                         *)
(* ===================================================================== *)

(** Same key and same value: one [MATCH] of high confidence, no diffs. *)
Example exact_match_example :
  reconcileFiles utc [recAcme] [recAcme]
  = [mkResult "G1-INV-2" (Some recAcme) (Some recAcme) MATCH (Some High) None].
Proof. reflexivity. Qed.

(** Same counterparty, different invoice numbers, similar names: the fuzzy
    pass pairs the two records; of two candidates of equal score the first
    of the pool wins and the other is left over. *)
Example fuzzy_tie_example :
  reconcileFiles utc [recAcmeLtd] [recAcme; recAcmePvt]
  = [fuzzyOutcome utc recAcmeLtd recAcme; onlyInB recAcmePvt].
Proof. reflexivity. Qed.

(** Against an empty file B every keyed record of A is left over, in the
    order of A. *)
Example empty_B_example :
  reconcileFiles utc [recAlpha; recOld] []
  = [onlyInA recAlpha; onlyInA recOld].
Proof. reflexivity. Qed.

(** A different counterparty is never a fuzzy partner. *)
Example other_gstin_example :
  reconcileFiles utc [recNew] [recAcme]
  = [onlyInA recNew; onlyInB recAcme].
Proof. reflexivity. Qed.

(* ===================================================================== *)
(** ** Further properties of the helper predicates                        *)
(* ===================================================================== *)

Lemma append_dash_inj g1 i1 g2 i2 :
  hasChar "-" g1 = false -> hasChar "-" g2 = false ->
  g1 +:+ "-" +:+ i1 = g2 +:+ "-" +:+ i2 -> g1 = g2 /\ i1 = i2.
Proof.
  revert g2. induction g1 as [|c g1 IH]; intros [|d g2]; simpl.
  - intros _ _ H. by injection H.
  - intros _ Hd H. injection H as <- _. by rewrite Ascii.eqb_refl in Hd.
  - intros Hc _ H. injection H as -> _. by rewrite Ascii.eqb_refl in Hc.
  - intros [_ Hc]%orb_false_iff [_ Hd]%orb_false_iff H.
    injection H as -> H. destruct (IH g2 Hc Hd H) as [-> ->]. done.
Qed.

(** X3. With no dash inside the normalized GSTINs, two records have the same
    match key only if their normalized GSTINs and their normalized invoice
    numbers are equal. *)
Theorem createKey_inj_without_dash a b :
  hasChar "-" (keyGstin a) = false -> hasChar "-" (keyGstin b) = false ->
  createKey a = createKey b ->
  keyGstin a = keyGstin b /\ keyInvoiceNo a = keyInvoiceNo b.
Proof. intros Ha Hb. by apply append_dash_inj. Qed.

Lemma createKey_inj_without_dash_witness :
  keyGstin recAlpha = keyGstin recBeta /\
  keyInvoiceNo recAlpha = keyInvoiceNo recBeta.
Proof.
  apply (createKey_inj_without_dash recAlpha recBeta); reflexivity.
Defined.

Lemma ceilDiv_le_7 x :
  (ceilDiv x msPerDay <= 7 <-> x <= 7 * msPerDay)%Z.
Proof.
  unfold ceilDiv, msPerDay.
  pose proof (Z.div_mod (- x) (1000 * 60 * 60 * 24) ltac:(lia)) as Hdm.
  pose proof (Z.mod_pos_bound (- x) (1000 * 60 * 60 * 24) ltac:(lia)) as Hb.
  lia.
Qed.

(** X4. Two dates are close exactly when both cells are present, both parse,
    and the two instants are at most seven times 24 hours apart. *)
Theorem areDatesClose_iff dateA dateB :
  areDatesClose dateA dateB = true <->
  exists t1 t2, dateA = CellValue (Some t1) /\ dateB = CellValue (Some t2) /\
                (Z.abs (t2 - t1) <= 7 * msPerDay)%Z.
Proof.
  unfold areDatesClose, areDatesClose_tol.
  destruct dateA as [| |[t1|]], dateB as [| |[t2|]]; simpl;
    try (split; [done | by intros (? & ? & ? & ? & ?)]).
  rewrite Z.leb_le, ceilDiv_le_7. split.
  - intros H. by exists t1, t2.
  - intros (? & ? & [= ->] & [= ->] & H). done.
Qed.

Lemma prefix_iff t s :
  String.prefix t s = true <-> exists post, s = t +:+ post.
Proof.
  revert s. induction t as [|c t IH]; intros s; simpl.
  - destruct s; (split; [intros _; eexists; reflexivity | done]).
  - destruct s as [|d s]; simpl.
    + split; [done | by intros (? & ?)].
    + destruct (ascii_dec c d) as [->|Hne].
      * rewrite IH. split.
        -- intros (post & ->). by exists post.
        -- intros (post & [= ->]). by exists post.
      * split; [done|]. intros (post & [= -> _]). done.
Qed.

(** [includes] is the test for a contiguous substring. *)
Lemma includes_iff s t :
  includes s t = true <-> exists pre post, s = pre +:+ t +:+ post.
Proof.
  induction s as [|c s IH]; cbn [includes].
  - rewrite orb_false_r, prefix_iff. split.
    + intros (post & ->). by exists "", post.
    + intros ([|] & post & H); [by exists post | done].
  - rewrite orb_true_iff, IH, prefix_iff. split.
    + intros [(post & ->)|(pre & post & ->)].
      * by exists "", post.
      * by exists (String c pre), post.
    + intros ([|d pre] & post & H); simpl in H.
      * left. by exists post.
      * injection H as -> ->. right. by exists pre, post.
Qed.

(** X5. Two names are similar exactly when neither is blank once simplified and
    one simplified name occurs in the other as a contiguous substring. *)
Theorem areNamesSimilar_iff a b :
  areNamesSimilar (Some a) (Some b) = true <->
  simplify a <> "" /\ simplify b <> "" /\
  ((exists pre post, simplify a = pre +:+ simplify b +:+ post) \/
   (exists pre post, simplify b = pre +:+ simplify a +:+ post)).
Proof.
  assert (Hblank : forall s, s = "" -> simplify s = "") by (by intros ? ->).
  unfold areNamesSimilar, truthy.
  destruct (String.eqb_spec a "") as [Ha|Ha]; simpl.
  { split; [done|]. intros (H & _). destruct H. by apply Hblank. }
  destruct (String.eqb_spec b "") as [Hb|Hb]; simpl.
  { split; [done|]. intros (_ & H & _). destruct H. by apply Hblank. }
  destruct (String.eqb_spec (simplify a) "") as [Hsa|Hsa]; simpl.
  { split; [done|]. by intros (H & _). }
  destruct (String.eqb_spec (simplify b) "") as [Hsb|Hsb]; simpl.
  { split; [done|]. by intros (_ & H & _). }
  rewrite orb_true_iff, !includes_iff. tauto.
Qed.

(** Name similarity does not depend on the order of the two names. *)
Theorem areNamesSimilar_sym nameA nameB :
  areNamesSimilar nameA nameB = areNamesSimilar nameB nameA.
Proof.
  unfold areNamesSimilar. destruct nameA as [a|], nameB as [b|]; try done.
  rewrite (orb_comm (negb (truthy a))).
  rewrite (orb_comm (negb (truthy (simplify a)))).
  by rewrite (orb_comm (includes (simplify a) (simplify b))).
Qed.

Lemma Qabs_minus_sym x y : Qabs (x - y) == Qabs (y - x).
Proof.
  rewrite <- (Qabs_opp (x - y)). apply Qabs_wd. ring.
Qed.

(** X6. Values equal within 0.001 are close within 1, and both comparisons are
    symmetric. *)
Theorem areValuesEqual_close valA valB :
  (areValuesEqual valA valB = true -> areValuesClose valA valB = true) /\
  areValuesEqual valA valB = areValuesEqual valB valA /\
  areValuesClose valA valB = areValuesClose valB valA.
Proof.
  unfold areValuesEqual, areValuesClose, areValuesClose_tol, Qltb.
  pose proof (Qabs_minus_sym valA valB) as Hs.
  split_and!.
  - rewrite negb_true_iff. intros H. apply Qle_bool_iff.
    destruct (Qle_bool (1 # 1000) (Qabs (valA - valB))) eqn:E; [done|].
    apply Qlt_le_weak. apply Qnot_le_lt. intros Hle.
    assert ((1 # 1000) <= Qabs (valA - valB))%Q as Hc.
    { eapply Qle_trans; [|exact Hle]. done. }
    apply Qle_bool_iff in Hc. congruence.
  - f_equal. apply eq_true_iff_eq. rewrite !Qle_bool_iff. by rewrite Hs.
  - apply eq_true_iff_eq. rewrite !Qle_bool_iff. by rewrite Hs.
Qed.

Lemma areValuesEqual_close_witness :
  areValuesClose 100 (1000001 # 10000) = true.
Proof.
  apply (proj1 (areValuesEqual_close 100 (1000001 # 10000))). reflexivity.
Defined.

(** X7. A candidate reaches the threshold of 2 exactly when the names are
    similar or both the values and the dates are close; the score never
    exceeds 4. *)
Theorem score_threshold itemA itemB :
  (2 <=? scoreOf itemA itemB)%nat
  = areNamesSimilar (Name itemA) (Name itemB)
    || (areValuesClose (taxable_value itemA) (taxable_value itemB)
        && areDatesClose (Invoice_date itemA) (Invoice_date itemB)) /\
  scoreOf itemA itemB <= 4.
Proof.
  unfold scoreOf.
  destruct (areNamesSimilar _ _), (areValuesClose _ _), (areDatesClose _ _);
    simpl; split; (done || lia).
Qed.

Lemma getDiffs_flags tz a b :
  getDiffs tz a b
  = (if strictNe (normalized (GSTIN a)) (normalized (GSTIN b))
     then ["GSTIN"] else [])
    ++ (if strictNe (normalized (Invoice_no a)) (normalized (Invoice_no b))
        then ["Invoice no."] else [])
    ++ (if areNamesSimilar (Name a) (Name b) then [] else ["Name"])
    ++ (if DateString_eqb (toDateString tz (newDate (Invoice_date a)))
             (toDateString tz (newDate (Invoice_date b)))
        then [] else ["Invoice date"])
    ++ (if areValuesEqual (taxable_value a) (taxable_value b)
        then [] else ["taxable value"]).
Proof.
  unfold getDiffs, truthyDate.
  by destruct (strictNe (normalized (GSTIN a)) _),
    (strictNe (normalized (Invoice_no a)) _), (areNamesSimilar _ _),
    (DateString_eqb _ _), (areValuesEqual _ _).
Qed.

(** X8. The diff set lists field names in the fixed order GSTIN, invoice number,
    name, invoice date, taxable value, each at most once. *)
Theorem getDiffs_ordered tz a b :
  getDiffs tz a b `sublist_of` fieldNames /\ NoDup (getDiffs tz a b).
Proof.
  assert (H : getDiffs tz a b `sublist_of` fieldNames).
  { rewrite getDiffs_flags. unfold fieldNames.
    change ["GSTIN"; "Invoice no."; "Name"; "Invoice date"; "taxable value"]
      with (["GSTIN"] ++ ["Invoice no."] ++ ["Name"] ++ ["Invoice date"]
            ++ ["taxable value"]).
    repeat apply sublist_app;
      match goal with |- (if ?c then _ else _) `sublist_of` _ =>
        destruct c; (done || apply sublist_nil_l) end. }
  split; [done|]. eapply sublist_NoDup; [|exact H].
  apply NoDup_ListNoDup. unfold fieldNames.
  repeat constructor; simpl; intuition discriminate.
Qed.

(** X9. Which fields the diff set reports: the GSTIN and the invoice number when
    their normalized values differ, the name when the names are not similar,
    the taxable value when the values are not equal within 0.001. *)
Theorem getDiffs_fields tz a b :
  ("GSTIN" ∈ getDiffs tz a b <->
     normalized (GSTIN a) <> normalized (GSTIN b)) /\
  ("Invoice no." ∈ getDiffs tz a b <->
     normalized (Invoice_no a) <> normalized (Invoice_no b)) /\
  ("Name" ∈ getDiffs tz a b <-> areNamesSimilar (Name a) (Name b) = false) /\
  ("taxable value" ∈ getDiffs tz a b <->
     areValuesEqual (taxable_value a) (taxable_value b) = false).
Proof.
  rewrite getDiffs_flags, <- !strictNe_true.
  destruct (strictNe (normalized (GSTIN a)) _),
    (strictNe (normalized (Invoice_no a)) _), (areNamesSimilar _ _),
    (DateString_eqb _ _), (areValuesEqual _ _); simpl;
    rewrite !list_elem_of_In; simpl; intuition discriminate.
Qed.

(* ===================================================================== *)
(** ** The shape and the order of the outcomes                            *)
(* ===================================================================== *)

Lemma mapGet_mapDelete_None {V} (m : list (string * V)) k k' :
  mapGet k m = None -> mapGet k (mapDelete k' m) = None.
Proof.
  rewrite !mapGet_None. intros Hnin Hin. apply Hnin.
  eapply elem_of_sublist; [exact Hin|].
  apply fmap_sublist, mapDelete_sublist.
Qed.

Lemma mapGet_mapDelete_ne {V} (m : list (string * V)) k k' :
  k <> k' -> mapGet k (mapDelete k' m) = mapGet k m.
Proof.
  intros Hne. induction m as [|[k0 v0] m IH]; simpl; [done|].
  destruct (String.eqb_spec k0 k') as [->|Hne0]; simpl.
  - destruct (String.eqb_spec k' k); [congruence|done].
  - destruct (String.eqb_spec k0 k); [done|apply IH].
Qed.

Lemma mapGet_wfMap m k b :
  wfMap m -> mapGet k m = Some b -> createKey b = k /\ validKey k = true.
Proof.
  intros [_ Hall] Hget%mapGet_elem.
  apply (proj1 (Forall_forall _ _) Hall) in Hget as [Hk Hv]. simpl in *.
  split; [done|]. by destruct (validKey k).
Qed.

Section Structure.
Variable tz : Z -> Z.

Lemma pass1_structure As : forall st,
  wfMap (mapB st) ->
  Forall (fun a => mapGet (createKey a) (mapB st) = None) (unmatchedA st) ->
  let st' := fold_left (pass1Step tz) As st in
  exists new u,
    results1 st' = results1 st ++ new /\
    unmatchedA st' = unmatchedA st ++ u /\
    Forall (Exact tz) new /\
    dataAs new `sublist_of` As /\
    u `sublist_of` As /\
    wfMap (mapB st') /\
    Forall (fun a => mapGet (createKey a) (mapB st') = None) (unmatchedA st').
Proof.
  induction As as [|a As IH]; intros st Hwf Hun; simpl.
  - exists [], []. rewrite !app_nil_r. split_and!; done.
  - destruct (pass1Step_cases tz st a)
      as [[Hk Hst]|[(Hk & b & Hget & Hst)|(Hk & Hget & Hst)]]; rewrite Hst.
    + destruct (IH st Hwf Hun) as (new & u & ? & ? & ? & ? & ? & ? & ?).
      exists new, u. split_and!; try done; by apply sublist_cons.
    + destruct (IH (mkPass1 (results1 st ++ [exactOutcome tz a b])
                      (unmatchedA st) (mapDelete (createKey a) (mapB st))))
        as (new & u & Hr & Hu & HE & Hs1 & Hs2 & Hwf' & Hun'); simpl.
      { eapply wfMap_sublist; [apply mapDelete_sublist|done]. }
      { eapply Forall_impl; [exact Hun|]. intros x Hx.
        by apply mapGet_mapDelete_None. }
      simpl in Hr, Hu.
      exists (exactOutcome tz a b :: new), u. split_and!; try done.
      * by rewrite Hr, <- app_assoc.
      * apply Forall_cons. split; [|done]. exists a, b.
        destruct (mapGet_wfMap _ _ _ Hwf Hget). done.
      * simpl. by apply sublist_skip.
      * by apply sublist_cons.
    + destruct (IH (mkPass1 (results1 st) (unmatchedA st ++ [a]) (mapB st)))
        as (new & u & Hr & Hu & HE & Hs1 & Hs2 & Hwf' & Hun'); simpl.
      { done. }
      { apply Forall_app. split; [done|]. by apply Forall_singleton. }
      simpl in Hr, Hu.
      exists new, (a :: u). split_and!; try done.
      * by rewrite Hu, <- app_assoc.
      * by apply sublist_cons.
      * by apply sublist_skip.
Qed.

Lemma pass2_structure pool As : forall st,
  (forall a b, a ∈ As -> b ∈ pool -> createKey a <> createKey b) ->
  let st' := fold_left (pass2Step tz pool) As st in
  exists new f,
    results2 st' = results2 st ++ new /\
    finalUnmatchedA st' = finalUnmatchedA st ++ f /\
    Forall (Fuzzy tz) new /\
    dataAs new `sublist_of` As /\
    f `sublist_of` As.
Proof.
  induction As as [|a As IH]; intros st Hkeys; simpl.
  - exists [], []. rewrite !app_nil_r. split_and!; done.
  - assert (Hkeys' : forall x b, x ∈ As -> b ∈ pool ->
                       createKey x <> createKey b).
    { intros x b Hx. apply Hkeys. by right. }
    destruct (pass2Step_cases tz pool st a) as [(bm & Hbm & Hst)|[Hnone Hst]];
      rewrite Hst.
    + destruct (IH (mkPass2 (results2 st ++ [fuzzyOutcome tz a (best_item bm)])
                      (finalUnmatchedA st)
                      (setDelete (best_index bm) (unmatchedBIndexes st)))
                  Hkeys')
        as (new & f & Hr & Hf & HF & Hs1 & Hs2).
      simpl in Hr, Hf.
      destruct (findBestMatch_Some _ _ _ _ Hbm) as (_ & Hlk & Hel).
      exists (fuzzyOutcome tz a (best_item bm) :: new), f.
      split_and!; try done.
      * by rewrite Hr, <- app_assoc.
      * apply Forall_cons. split; [|done]. exists a, (best_item bm).
        split_and!; try done. apply Hkeys; [left|].
        by eapply list_elem_of_lookup_2.
      * simpl. by apply sublist_skip.
      * by apply sublist_cons.
    + destruct (IH (mkPass2 (results2 st) (finalUnmatchedA st ++ [a])
                      (unmatchedBIndexes st)) Hkeys')
        as (new & f & Hr & Hf & HF & Hs1 & Hs2).
      simpl in Hr, Hf.
      exists new, (a :: f). split_and!; try done.
      * by rewrite Hf, <- app_assoc.
      * by apply sublist_cons.
      * by apply sublist_skip.
Qed.

(** X11. The outcomes come in four blocks: the pairs found through the key
    lookup, the pairs found by scoring, the left-over records of A and the
    left-over records of B. Within each of the first three blocks the
    records of A keep the order of A; the left-over records of B keep the
    order of the lookup. *)
Theorem reconcile_structure A B :
  exists exacts fuzzies restA restB,
    reconcileFiles tz A B
      = exacts ++ fuzzies ++ map onlyInA restA ++ map onlyInB restB /\
    Forall (Exact tz) exacts /\ Forall (Fuzzy tz) fuzzies /\
    dataAs exacts `sublist_of` A /\ dataAs fuzzies `sublist_of` A /\
    restA `sublist_of` A /\ restB `sublist_of` mapValues (buildMapB B).
Proof.
  destruct (pass1_structure A (mkPass1 [] [] (buildMapB B)))
    as (exacts & u & Hr1 & Hu & HE & HsE & Hsu & Hwf & Hun);
    [apply wfMap_buildMapB | apply Forall_nil_2 |].
  fold (pass1 tz A B) in Hr1, Hu, Hwf, Hun. simpl in Hr1, Hu.
  set (st1 := pass1 tz A B) in *. set (pool := mapValues (mapB st1)).
  destruct (pass2_structure pool (unmatchedA st1)
              (mkPass2 (results1 st1) [] (seq 0 (length pool))))
    as (fuzzies & f & Hr2 & Hf & HF & HsF & Hsf).
  { intros a b Ha Hb Heq.
    apply (proj1 (Forall_forall _ _) Hun) in Ha.
    apply mapGet_None in Ha. apply Ha.
    unfold pool, mapValues in Hb.
    apply list_elem_of_fmap in Hb as ([k v] & -> & Hin).
    destruct Hwf as [_ Hall].
    apply (proj1 (Forall_forall _ _) Hall) in Hin as Hkv. simpl in Hkv.
    destruct Hkv as [Hkv _]. simpl in Heq. rewrite Heq, Hkv.
    apply list_elem_of_fmap. by exists (k, v). }
  simpl in Hr2, Hf.
  destruct (pass2_fold tz pool (unmatchedA st1)
              (mkPass2 (results1 st1) [] (seq 0 (length pool))))
    as (_ & _ & Hidx & _). simpl in Hidx.
  destruct (pass1_fold tz A (mkPass1 [] [] (buildMapB B)))
    as (_ & _ & Hmap & _). simpl in Hmap.
  exists exacts, fuzzies, f, (itemsAt pool (unmatchedBIndexes (pass2 tz st1))).
  split_and!; try done.
  - unfold reconcileFiles. fold st1. fold pool. unfold pass2 at 1 2. cbv zeta.
    fold pool. rewrite Hr2, Hf, Hr1. by rewrite <- app_assoc.
  - etrans; [exact HsF|]. by rewrite Hu.
  - etrans; [exact Hsf|]. by rewrite Hu.
  - etrans; [apply itemsAt_sublist; exact Hidx|].
    apply (fmap_sublist snd _ _ Hmap).
Qed.
End Structure.

Lemma reconcile_cases tz A B r :
  r ∈ reconcileFiles tz A B ->
  Exact tz r \/ Fuzzy tz r \/ (exists a, r = onlyInA a) \/ (exists b, r = onlyInB b).
Proof.
  destruct (reconcile_structure tz A B)
    as (ex & fz & ra & rb & -> & HE & HF & _).
  rewrite !elem_of_app. intros [Hr|[Hr|[Hr|Hr]]].
  - left. by apply (proj1 (Forall_forall _ _) HE).
  - right. left. by apply (proj1 (Forall_forall _ _) HF).
  - right. right. left. apply list_elem_of_fmap in Hr as (a & -> & _). eauto.
  - do 3 right. apply list_elem_of_fmap in Hr as (b & -> & _). eauto.
Qed.

(** X12. An outcome of high confidence carries two records with the same valid
    match key, which is the key of the outcome. *)
Theorem exact_pairs_share_key tz A B r :
  r ∈ reconcileFiles tz A B ->
  matchConfidence r = Some High ->
  exists a b, dataA r = Some a /\ dataB r = Some b /\
    key r = createKey a /\ createKey b = createKey a /\
    validKey (createKey a) = true.
Proof.
  intros Hr Hc.
  destruct (reconcile_cases tz A B r Hr)
    as [(a & b & -> & Hk & Hv)|[(a & b & -> & _)|[(a & ->)|(b & ->)]]];
    try discriminate.
  by exists a, b.
Qed.

Lemma exact_pairs_share_key_witness :
  exists a b,
    dataA (exactOutcome utc recAlpha recBeta) = Some a /\
    dataB (exactOutcome utc recAlpha recBeta) = Some b /\
    key (exactOutcome utc recAlpha recBeta) = createKey a /\
    createKey b = createKey a /\ validKey (createKey a) = true.
Proof.
  apply (exact_pairs_share_key utc [recAlpha] [recBeta]);
    [vm_compute; left | reflexivity].
Defined.

(** X13. An outcome of low confidence pairs two records whose match keys differ:
    its diff set never names the GSTIN and always names the invoice
    number. *)
Theorem fuzzy_pairs_differ_in_invoice_no tz A B r :
  r ∈ reconcileFiles tz A B ->
  matchConfidence r = Some Low ->
  exists a b, dataA r = Some a /\ dataB r = Some b /\
    createKey a <> createKey b /\
    diffs r = Some (getDiffs tz a b) /\
    ("GSTIN" ∉ getDiffs tz a b) /\ "Invoice no." ∈ getDiffs tz a b.
Proof.
  intros Hr Hc.
  destruct (reconcile_cases tz A B r Hr)
    as [(a & b & -> & _)|[(a & b & -> & [Hg _] & Hne)|[(a & ->)|(b & ->)]]];
    try discriminate.
  exists a, b. destruct (getDiffs_fields tz a b) as (HG & HI & _).
  split_and!; try done.
  - rewrite HG. tauto.
  - apply HI. intros Hi. apply Hne. unfold createKey. by rewrite Hg, Hi.
Qed.

Lemma fuzzy_pairs_differ_in_invoice_no_witness :
  exists a b,
    dataA (fuzzyOutcome utc recAcmeLtd recAcme) = Some a /\
    dataB (fuzzyOutcome utc recAcmeLtd recAcme) = Some b /\
    createKey a <> createKey b /\
    diffs (fuzzyOutcome utc recAcmeLtd recAcme) = Some (getDiffs utc a b) /\
    ("GSTIN" ∉ getDiffs utc a b) /\ "Invoice no." ∈ getDiffs utc a b.
Proof.
  apply (fuzzy_pairs_differ_in_invoice_no utc [recAcmeLtd] [recAcme]);
    [vm_compute; left | reflexivity].
Defined.

(** X14. What a remark tells about an outcome: [MATCH] goes with a pair of high
    confidence and equal values, [PARTIALLY_MATCHED] with a pair that is of
    low confidence or has unequal values, and the two other remarks with a
    single record, no confidence and no diff set. No outcome is empty. *)
Theorem remark_determines_shape tz A B r :
  r ∈ reconcileFiles tz A B ->
  match remark r with
  | MATCH =>
      exists a b, dataA r = Some a /\ dataB r = Some b /\
        matchConfidence r = Some High /\
        areValuesEqual (taxable_value a) (taxable_value b) = true
  | PARTIALLY_MATCHED =>
      exists a b, dataA r = Some a /\ dataB r = Some b /\
        (matchConfidence r = Some Low \/
         matchConfidence r = Some High /\
         areValuesEqual (taxable_value a) (taxable_value b) = false)
  | NOT_IN_B =>
      exists a, dataA r = Some a /\ dataB r = None /\ key r = createKey a /\
        matchConfidence r = None /\ diffs r = None
  | NOT_IN_A =>
      exists b, dataA r = None /\ dataB r = Some b /\ key r = createKey b /\
        matchConfidence r = None /\ diffs r = None
  end.
Proof.
  intros Hr.
  destruct (reconcile_cases tz A B r Hr)
    as [(a & b & -> & _)|[(a & b & -> & _)|[(a & ->)|(b & ->)]]]; simpl.
  - destruct (areValuesEqual _ _) eqn:E; exists a, b; split_and!; try done.
    by right.
  - exists a, b. split_and!; try done. by left.
  - by exists a.
  - by exists b.
Qed.

Lemma remark_determines_shape_witness :
  exists a b,
    dataA (exactOutcome utc recAlpha recBeta) = Some a /\
    dataB (exactOutcome utc recAlpha recBeta) = Some b /\
    matchConfidence (exactOutcome utc recAlpha recBeta) = Some High /\
    areValuesEqual (taxable_value a) (taxable_value b) = true.
Proof.
  apply (remark_determines_shape utc [recAlpha] [recBeta]
           (exactOutcome utc recAlpha recBeta)).
  vm_compute. left.
Defined.

(* ===================================================================== *)
(** ** Priority of step 1, empty files, number of outcomes                *)
(* ===================================================================== *)

Lemma pass1_keeps_key tz As k : forall st,
  hasKey k As = false ->
  mapGet k (mapB (fold_left (pass1Step tz) As st)) = mapGet k (mapB st).
Proof.
  induction As as [|a As IH]; intros st Hk; simpl; [done|].
  unfold hasKey in Hk. simpl in Hk. apply orb_false_iff in Hk as [Ha HAs].
  apply String.eqb_neq in Ha.
  rewrite IH by done.
  destruct (pass1Step_cases tz st a)
    as [[_ ->]|[(_ & b & _ & ->)|(_ & _ & ->)]]; simpl; try done.
  apply mapGet_mapDelete_ne. congruence.
Qed.

Lemma pass1_results_grow tz As r : forall st,
  r ∈ results1 st -> r ∈ results1 (fold_left (pass1Step tz) As st).
Proof.
  induction As as [|a As IH]; intros st Hr; simpl; [done|]. apply IH.
  destruct (pass1Step_cases tz st a)
    as [[_ ->]|[(_ & b & _ & ->)|(_ & _ & ->)]]; simpl; try done.
  apply elem_of_app. by left.
Qed.

Lemma pass2_results_grow tz pool As r : forall st,
  r ∈ results2 st -> r ∈ results2 (fold_left (pass2Step tz pool) As st).
Proof.
  induction As as [|a As IH]; intros st Hr; simpl; [done|]. apply IH.
  destruct (pass2Step_cases tz pool st a) as [(bm & _ & ->)|[_ ->]];
    simpl; try done.
  apply elem_of_app. by left.
Qed.

(** X15. The first record of A that holds a given valid key is paired, with high
    confidence, with the last record of B that holds this key. *)
Theorem first_record_of_key_wins tz A1 a A2 B1 b B3 :
  validKey (createKey a) = true ->
  hasKey (createKey a) A1 = false ->
  createKey b = createKey a ->
  hasKey (createKey a) B3 = false ->
  exactOutcome tz a b ∈ reconcileFiles tz (A1 ++ a :: A2) (B1 ++ b :: B3).
Proof.
  intros Hv HA1 Hkb HB3.
  assert (Hget : mapGet (createKey a) (buildMapB (B1 ++ b :: B3)) = Some b).
  { rewrite <- Hkb. apply mapGet_buildMapB_last; by rewrite Hkb. }
  unfold reconcileFiles. apply elem_of_app. left.
  unfold pass2. apply pass2_results_grow. simpl.
  unfold pass1. rewrite fold_left_app. simpl. apply pass1_results_grow.
  set (st := fold_left (pass1Step tz) A1 _).
  assert (Hst : mapGet (createKey a) (mapB st) = Some b).
  { unfold st. by rewrite pass1_keeps_key. }
  destruct (pass1Step_cases tz st a)
    as [[E _]|[(_ & b' & Hb' & ->)|(_ & E & _)]]; try congruence.
  simpl. apply elem_of_app. right. rewrite Hst in Hb'. injection Hb' as <-.
  left.
Qed.

Lemma first_record_of_key_wins_witness :
  exactOutcome utc recOld recNew
    ∈ reconcileFiles utc ([recAlpha] ++ recOld :: [recNew])
        ([recOld] ++ recNew :: [recAcme]).
Proof.
  apply (first_record_of_key_wins utc [recAlpha] recOld [recNew]
           [recOld] recNew [recAcme]); reflexivity.
Defined.

Lemma pass1_empty_lookup tz As : forall rs u,
  fold_left (pass1Step tz) As (mkPass1 rs u []) = mkPass1 rs (u ++ keyed As) [].
Proof.
  induction As as [|a As IH]; intros rs u; simpl.
  - unfold keyed. by rewrite filter_nil, app_nil_r.
  - rewrite keyed_cons.
    destruct (pass1Step_cases tz (mkPass1 rs u []) a)
      as [[Hk ->]|[(_ & b & Hb & _)|(Hk & _ & ->)]]; try done.
    + by rewrite IH, Hk.
    + simpl. by rewrite IH, Hk, <- app_assoc.
Qed.

Lemma pass2_empty_pool tz As : forall rs f,
  fold_left (pass2Step tz []) As (mkPass2 rs f []) = mkPass2 rs (f ++ As) [].
Proof.
  induction As as [|a As IH]; intros rs f; simpl.
  - by rewrite app_nil_r.
  - unfold pass2Step at 2. simpl. by rewrite IH, <- app_assoc.
Qed.

(** X17. Against an empty file B the outcomes are the keyed records of A, each
    alone, in the order of A; against an empty file A they are the records
    of the lookup built from B, each alone, in the order of the lookup. *)
Theorem reconcile_empty_file tz l :
  reconcileFiles tz l [] = map onlyInA (keyed l) /\
  reconcileFiles tz [] l = map onlyInB (mapValues (buildMapB l)).
Proof.
  split.
  - unfold reconcileFiles, pass2, pass1. simpl.
    rewrite pass1_empty_lookup. simpl. rewrite pass2_empty_pool. simpl.
    by rewrite app_nil_r.
  - unfold reconcileFiles, pass2, pass1. simpl. by rewrite itemsAt_seq.
Qed.

(** X18. The number of outcomes: every keyed record of A and every last-per-key
    record of B gives one outcome, and a pair counts once. *)
Theorem number_of_outcomes tz A B :
  length (reconcileFiles tz A B)
  + length (filter (fun r => is_Some (matchConfidence r)) (reconcileFiles tz A B))
  = length (keyed A) + length (lastPerKey B).
Proof.
  destruct (reconcile_accounting tz A B) as (-> & HP & HA & HB).
  set (paired := results2 _) in *. set (fa := finalUnmatchedA _) in *.
  set (fb := itemsAt _ _) in *.
  apply Permutation_length in HA, HB. rewrite length_app in HA, HB.
  assert (Hlen : length (dataAs paired) = length paired /\
                 length (dataBs paired) = length paired /\
                 filter (fun r => is_Some (matchConfidence r)) paired = paired).
  { clearbody paired. clear -HP. induction HP as [|r rs Hr _ IH]; [done|].
    destruct IH as (IH1 & IH2 & IH3).
    unfold dataAs, dataBs in *.
    destruct Hr as [(a & b & ->)|(a & b & -> & _)];
      rewrite filter_cons_True by (simpl; by eexists); rewrite IH3; simpl;
      split_and!; try done; by f_equal. }
  destruct Hlen as (H1 & H2 & H3).
  rewrite !filter_app, H3, !length_app, !length_map.
  assert (filter (fun r => is_Some (matchConfidence r)) (map onlyInA fa) = [])
    as -> by (clear; induction fa; [done|]; simpl;
              rewrite filter_cons_False; [done|]; by intros [? ?]).
  assert (filter (fun r => is_Some (matchConfidence r)) (map onlyInB fb) = [])
    as -> by (clear; induction fb; [done|]; simpl;
              rewrite filter_cons_False; [done|]; by intros [? ?]).
  simpl. lia.
Qed.

(* ===================================================================== *)
(** ** Aggregation                                                        *)
(* ===================================================================== *)

Lemma setTaxableValue_same a : setTaxableValue a (taxable_value a) = a.
Proof. by destruct a. Qed.

Lemma createKey_setTaxableValue a v : createKey (setTaxableValue a v) = createKey a.
Proof. done. Qed.

Lemma complete_validKey x : complete x = true -> validKey (createKey x) = true.
Proof.
  unfold complete. intros [Hg _]%andb_true_iff.
  destruct (validKey (createKey x)) eqn:E; [done|].
  apply validKey_createKey in E as [E _]. fold (keyGstin x) in E.
  by rewrite E in Hg.
Qed.

Lemma aggregateStep_cases m x :
  (complete x = false /\ aggregateStep m x = m) \/
  (complete x = true /\ exists e, mapGet (createKey x) m = Some e /\
     aggregateStep m x
     = mapSet (createKey x)
         (setTaxableValue e (taxable_value e + taxable_value x)) m) \/
  (complete x = true /\ mapGet (createKey x) m = None /\
     aggregateStep m x = mapSet (createKey x) x m).
Proof.
  unfold aggregateStep, complete, keyGstin, keyInvoiceNo.
  fold (createKey x).
  destruct (truthy (orEmpty (normalized (GSTIN x)))),
    (truthy (orEmpty (normalized (Invoice_no x)))); simpl; try by left.
  right. destruct (mapGet (createKey x) m) as [e|] eqn:E; [left|right].
  - split; [done|]. by exists e.
  - done.
Qed.

Lemma elem_mapGet {V} (m : list (string * V)) k v :
  NoDup (m.*1) -> (k, v) ∈ m -> mapGet k m = Some v.
Proof.
  induction m as [|[k' v'] m IH]; csimpl; intros Hnd Hin.
  - by apply elem_of_nil in Hin.
  - apply NoDup_cons in Hnd as [Hnin Hnd].
    apply elem_of_cons in Hin as [[= -> ->]|Hin].
    + by rewrite String.eqb_refl.
    + destruct (String.eqb_spec k' k) as [->|Hne]; [|by apply IH].
      destruct Hnin. apply list_elem_of_fmap. by exists (k, v).
Qed.

Lemma wfAgg_step m x : wfAgg m -> wfAgg (aggregateStep m x).
Proof.
  intros [Hnd Hall].
  destruct (aggregateStep_cases m x)
    as [[_ ->]|[(Hc & e & Hget & ->)|(Hc & _ & ->)]]; [done| |].
  - split; [by apply mapSet_NoDup|].
    apply Forall_forall. intros kv [->|Hin]%mapSet_elem.
    + apply mapGet_elem in Hget.
      apply (proj1 (Forall_forall _ _) Hall) in Hget as [Hk He]. done.
    + by apply (proj1 (Forall_forall _ _) Hall).
  - split; [by apply mapSet_NoDup|].
    apply Forall_forall. intros kv [->|Hin]%mapSet_elem; [done|].
    by apply (proj1 (Forall_forall _ _) Hall).
Qed.

Lemma wfAgg_fold l : forall m, wfAgg m -> wfAgg (fold_left aggregateStep l m).
Proof.
  induction l as [|x l IH]; intros m Hm; simpl; [done|].
  by apply IH, wfAgg_step.
Qed.

Lemma wfAgg_nil : wfAgg [].
Proof. split; [apply NoDup_nil_2 | apply Forall_nil_2]. Qed.

Lemma group_app k l l' : group k (l ++ l') = group k l ++ group k l'.
Proof. apply filter_app. Qed.

Lemma group_singleton k x :
  group k [x] = if decide (complete x = true /\ createKey x = k) then [x] else [].
Proof. unfold group. by rewrite filter_cons, filter_nil. Qed.

(** The aggregation map holds, under each key, the first complete record
    with this key, its value replaced by the sum of the group. *)
Lemma aggregate_lookup l k :
  mapGet k (fold_left aggregateStep l [])
  = match group k l with
    | [] => None
    | a :: rest => Some (merged a rest)
    end.
Proof.
  induction l as [|x l IH] using rev_ind; [done|].
  rewrite fold_left_app, group_app, group_singleton. simpl.
  set (m := fold_left aggregateStep l []) in *.
  destruct (aggregateStep_cases m x)
    as [[Hc ->]|[(Hc & e & Hget & ->)|(Hc & Hget & ->)]].
  - rewrite decide_False by (intros [? _]; congruence).
    by rewrite app_nil_r.
  - destruct (decide (createKey x = k)) as [<-|Hne].
    + rewrite decide_True by done. rewrite mapGet_mapSet_eq.
      rewrite IH in Hget. destruct (group (createKey x) l) as [|a rest];
        [done|]. injection Hget as <-. simpl. f_equal. unfold merged.
      rewrite map_app, fold_left_app. done.
    + rewrite decide_False by (intros [_ ?]; done).
      rewrite app_nil_r, mapGet_mapSet_ne by done. apply IH.
  - destruct (decide (createKey x = k)) as [<-|Hne].
    + rewrite decide_True by done. rewrite mapGet_mapSet_eq.
      rewrite IH in Hget. destruct (group (createKey x) l) as [|a rest];
        [|done]. simpl. unfold merged. simpl.
      by rewrite setTaxableValue_same.
    + rewrite decide_False by (intros [_ ?]; done).
      rewrite app_nil_r, mapGet_mapSet_ne by done. apply IH.
Qed.

Lemma aggregateInvoiceData_values l :
  aggregateInvoiceData l = mapValues (fold_left aggregateStep l []).
Proof. unfold aggregateInvoiceData. by destruct l. Qed.

(** X19. Aggregation returns one record per key: for every key, either no
    complete row holds it and no returned record has it, or the returned
    list holds exactly one record with it, namely the first complete row
    with this key carrying the sum, from left to right, of the taxable
    values of all complete rows with this key. *)
Theorem aggregate_sums_groups l k :
  match group k l with
  | [] => forall e, e ∈ aggregateInvoiceData l -> createKey e <> k
  | a :: rest =>
      filter (fun e => createKey e = k) (aggregateInvoiceData l)
      = [merged a rest]
  end.
Proof.
  rewrite aggregateInvoiceData_values.
  pose proof (aggregate_lookup l k) as Hlk.
  pose proof (wfAgg_fold l [] wfAgg_nil) as Hwf.
  set (m := fold_left aggregateStep l []) in *.
  assert (Hwf' : wfMap m).
  { destruct Hwf as [Hnd Hall]. split; [done|].
    eapply Forall_impl; [exact Hall|]. intros [k' v] [Hk Hc]. simpl in *.
    split; [done|]. rewrite <- Hk. by rewrite (complete_validKey v Hc). }
  destruct (group k l) as [|a rest].
  - intros e He Hk. unfold mapValues in He.
    apply list_elem_of_fmap in He as ([k' v] & -> & Hin). simpl in Hk.
    destruct Hwf as [Hnd Hall].
    apply (proj1 (Forall_forall _ _) Hall) in Hin as Hkv.
    simpl in Hkv. destruct Hkv as [Hkv _].
    apply (elem_mapGet _ _ _ Hnd) in Hin. congruence.
  - by apply filter_key_mapValues.
Qed.

(** X20. The aggregated list meets the input contract of the engine: its records
    are complete, so their keys are valid, and no two share a key. *)
Theorem aggregate_meets_contract l :
  NoDup (map createKey (aggregateInvoiceData l)) /\
  Forall (fun e => complete e = true /\ validKey (createKey e) = true)
    (aggregateInvoiceData l).
Proof.
  rewrite aggregateInvoiceData_values.
  destruct (wfAgg_fold l [] wfAgg_nil) as [Hnd Hall].
  set (m := fold_left aggregateStep l []) in *. split.
  - assert (map createKey (mapValues m) = m.*1) as ->; [|done].
    unfold mapValues. clear Hnd.
    induction Hall as [|[k v] m' [Hk _] _ IH]; csimpl; [done|].
    simpl in Hk. by rewrite Hk, IH.
  - unfold mapValues. apply Forall_fmap.
    eapply Forall_impl; [exact Hall|]. intros [k v] [Hk Hc]. simpl in *.
    split; [done|]. by apply complete_validKey.
Qed.

Lemma aggregate_fold_distinct l : forall m,
  Forall (fun x => complete x = true) l ->
  NoDup (m.*1 ++ map createKey l) ->
  fold_left aggregateStep l m = m ++ map (fun x => (createKey x, x)) l.
Proof.
  induction l as [|x l IH]; intros m Hc Hnd; simpl.
  - by rewrite app_nil_r.
  - apply Forall_cons in Hc as [Hx Hc]. simpl in Hnd.
    assert (Hfresh : createKey x ∉ m.*1).
    { apply NoDup_app in Hnd as (_ & Hdisj & _).
      intros Hin. apply (Hdisj _ Hin). left. }
    destruct (aggregateStep_cases m x)
      as [[E _]|[(_ & e & Hget & _)|(_ & _ & ->)]]; [congruence| |].
    + apply mapGet_elem in Hget. destruct Hfresh.
      apply list_elem_of_fmap. by exists (createKey x, e).
    + rewrite mapSet_fresh by done. rewrite IH; [|done|].
      * by rewrite <- app_assoc.
      * rewrite fmap_app. simpl. by rewrite <- app_assoc.
Qed.

(** X21. A list that already meets the contract is returned unchanged. *)
Theorem aggregate_fixes_aggregated l :
  Forall (fun x => complete x = true) l -> NoDup (map createKey l) ->
  aggregateInvoiceData l = l.
Proof.
  intros Hc Hnd. rewrite aggregateInvoiceData_values.
  rewrite aggregate_fold_distinct by done. simpl.
  unfold mapValues. rewrite map_map. simpl. apply map_id.
Qed.

Lemma aggregate_fixes_aggregated_witness :
  aggregateInvoiceData [recAlpha; recAcme] = [recAlpha; recAcme].
Proof.
  apply aggregate_fixes_aggregated.
  - repeat constructor.
  - apply NoDup_ListNoDup. repeat constructor; simpl; intuition discriminate.
Defined.

(** X22. Aggregating twice is aggregating once. *)
Theorem aggregate_idempotent l :
  aggregateInvoiceData (aggregateInvoiceData l) = aggregateInvoiceData l.
Proof.
  destruct (aggregate_meets_contract l) as [Hnd Hall].
  apply aggregate_fixes_aggregated; [|done].
  eapply Forall_impl; [exact Hall|]. by intros e [? _].
Qed.

(** X23. Reconciling two aggregated files loses no record: every aggregated
    record of either file appears in exactly one outcome. *)
Theorem reconcile_after_aggregate tz rowsA rowsB :
  dataAs (reconcileFiles tz (aggregateInvoiceData rowsA)
            (aggregateInvoiceData rowsB))
    ≡ₚ aggregateInvoiceData rowsA /\
  dataBs (reconcileFiles tz (aggregateInvoiceData rowsA)
            (aggregateInvoiceData rowsB))
    ≡ₚ aggregateInvoiceData rowsB.
Proof.
  destruct (aggregate_meets_contract rowsA) as [_ HA].
  destruct (aggregate_meets_contract rowsB) as [HndB HB].
  set (A := aggregateInvoiceData rowsA) in *.
  set (B := aggregateInvoiceData rowsB) in *.
  assert (HkA : keyed A = A).
  { apply keyed_all. eapply Forall_impl; [exact HA|]. by intros e [_ ?]. }
  assert (HkB : keyed B = B).
  { apply keyed_all. eapply Forall_impl; [exact HB|]. by intros e [_ ?]. }
  split.
  - by rewrite dataAs_reconcileFiles, HkA.
  - rewrite dataBs_reconcileFiles, <- buildMapB_values.
    rewrite buildMapB_distinct by (by rewrite HkB). by rewrite HkB.
Qed.

Example aggregate_example :
  aggregateInvoiceData [rowPart1; rowNoNumber; recAcme; rowPart2]
  = [setTaxableValue rowPart1 (10 + 5); recAcme].
Proof. reflexivity. Qed.

(* ===================================================================== *)
(** ** Summary figures                                                    *)
(* ===================================================================== *)

Lemma Remark_value_inj x y : Remark_value x = Remark_value y -> x = y.
Proof. by destruct x, y. Qed.

Lemma countRemark_cons x r rs :
  countRemark x (r :: rs)
  = (if decide (remark r = x) then 1 else 0) + countRemark x rs.
Proof. unfold countRemark. rewrite filter_cons. by case_decide. Qed.

Lemma summary_fold rs x : forall acc,
  orZero (mapGet (Remark_value x) (fold_left summaryStep rs acc))
  = orZero (mapGet (Remark_value x) acc) + countRemark x rs.
Proof.
  induction rs as [|r rs IH]; intros acc; simpl.
  - unfold countRemark. simpl. lia.
  - rewrite IH, countRemark_cons. unfold summaryStep.
    destruct (decide (remark r = x)) as [<-|Hne].
    + rewrite mapGet_mapSet_eq. simpl. lia.
    + rewrite mapGet_mapSet_ne; [lia|]. intros E. by apply Remark_value_inj in E.
Qed.

(** X24. Each card of the summary shows the number of outcomes with its remark,
    and the four cards add up to the number of outcomes. *)
Theorem summary_counts rs :
  (forall x, summaryCount rs x = countRemark x rs) /\
  summaryCount rs MATCH + summaryCount rs PARTIALLY_MATCHED
  + summaryCount rs NOT_IN_B + summaryCount rs NOT_IN_A = length rs.
Proof.
  assert (H : forall x, summaryCount rs x = countRemark x rs).
  { intros x. unfold summaryCount, summaryData. by rewrite summary_fold. }
  split; [done|]. rewrite !H. clear H.
  induction rs as [|r rs IH]; [done|].
  rewrite !countRemark_cons. simpl. rewrite <- IH.
  destruct (remark r); repeat case_decide; try congruence; lia.
Qed.

Lemma totalA_dataAs rs : totalA rs = length (dataAs rs).
Proof.
  unfold totalA, dataAs. induction rs as [|r rs IH]; [done|]. simpl.
  destruct (dataA r); simpl; by rewrite IH.
Qed.

Lemma totalB_dataBs rs : totalB rs = length (dataBs rs).
Proof.
  unfold totalB, dataBs. induction rs as [|r rs IH]; [done|]. simpl.
  destruct (dataB r); simpl; by rewrite IH.
Qed.

Lemma totals_by_remark rs :
  Forall (fun r => isPresent (dataA r) = negb (bool_decide (remark r = NOT_IN_A))
                /\ isPresent (dataB r) = negb (bool_decide (remark r = NOT_IN_B)))
    rs ->
  totalA rs = countRemark MATCH rs + countRemark PARTIALLY_MATCHED rs
              + countRemark NOT_IN_B rs /\
  totalB rs = countRemark MATCH rs + countRemark PARTIALLY_MATCHED rs
              + countRemark NOT_IN_A rs.
Proof.
  unfold totalA, totalB.
  induction 1 as [|r rs [HA HB] _ [IHA IHB]]; [done|].
  rewrite !countRemark_cons. simpl. rewrite HA, HB.
  destruct (remark r); simpl; repeat case_decide; try congruence;
    simpl; lia.
Qed.

(** X25. On the outcomes of the engine, the record totals of the summary are the
    number of keyed records of A and of last-per-key records of B, and each
    equals the matched, partially matched and one-sided counts together. *)
Theorem totals_of_reconcile tz A B :
  let rs := reconcileFiles tz A B in
  totalA rs = length (keyed A) /\
  totalB rs = length (lastPerKey B) /\
  totalA rs = summaryCount rs MATCH + summaryCount rs PARTIALLY_MATCHED
              + summaryCount rs NOT_IN_B /\
  totalB rs = summaryCount rs MATCH + summaryCount rs PARTIALLY_MATCHED
              + summaryCount rs NOT_IN_A.
Proof.
  intros rs. destruct (summary_counts rs) as [Hc _]. rewrite !Hc.
  assert (Hall : Forall (fun r =>
            isPresent (dataA r) = negb (bool_decide (remark r = NOT_IN_A))
            /\ isPresent (dataB r) = negb (bool_decide (remark r = NOT_IN_B)))
            rs).
  { apply Forall_forall. intros r Hr.
    pose proof (remark_determines_shape tz A B r Hr) as Hs.
    destruct (remark r); simpl.
    - destruct Hs as (a & b & -> & -> & _). done.
    - destruct Hs as (a & b & -> & -> & _). done.
    - destruct Hs as (a & -> & -> & _). done.
    - destruct Hs as (b & -> & -> & _). done. }
  destruct (totals_by_remark rs Hall) as [HA HB].
  split_and!; try done.
  - rewrite totalA_dataAs. unfold rs.
    by rewrite (Permutation_length (dataAs_reconcileFiles tz A B)).
  - rewrite totalB_dataBs. unfold rs.
    by rewrite (Permutation_length (dataBs_reconcileFiles tz A B)).
Qed.

Lemma matchedValue_skip rs v :
  Forall (fun r => remark r <> MATCH) rs ->
  fold_left
    (fun sum r =>
       if String.eqb (Remark_value (remark r)) (Remark_value MATCH)
       then valueOrZero (dataA r) else sum) rs v = v.
Proof.
  revert v. induction rs as [|r rs IH]; intros v Hall; simpl; [done|].
  apply Forall_cons in Hall as [Hr Hall]. rewrite IH by done.
  destruct (String.eqb_spec (Remark_value (remark r)) "Match") as [E|E];
    [|done].
  destruct Hr. by apply Remark_value_inj.
Qed.

(** X26. The matched value of the summary is the taxable value of the last
    outcome remarked [MATCH], not a sum over the matched outcomes; it is 0
    when there is none. *)
Theorem matchedValue_is_last rs r rs' :
  remark r = MATCH -> Forall (fun r' => remark r' <> MATCH) rs' ->
  matchedValue (rs ++ r :: rs') = valueOrZero (dataA r) /\
  matchedValue rs' = 0%Q.
Proof.
  intros Hr Hall. unfold matchedValue. split.
  - rewrite fold_left_app. simpl. rewrite Hr. simpl.
    by apply matchedValue_skip.
  - by apply matchedValue_skip.
Qed.

Lemma matchedValue_is_last_witness :
  matchedValue ([exactOutcome utc recAlpha recBeta]
                  ++ exactOutcome utc recOld recOld :: [onlyInA recAcme])
  = 10%Q /\
  matchedValue [onlyInA recAcme] = 0%Q.
Proof.
  apply (matchedValue_is_last [exactOutcome utc recAlpha recBeta]
           (exactOutcome utc recOld recOld) [onlyInA recAcme]).
  - reflexivity.
  - repeat constructor. discriminate.
Defined.

(* ===================================================================== *)
(** ** Header detection                                                   *)
(* ===================================================================== *)

Lemma findIndexFrom_spec {A} (p : A -> bool) (l : list A) (i : Z) :
  (findIndexFrom p l i = (-1)%Z /\ (0 <= i)%Z -> Forall (fun x => p x = false) l) /\
  ((0 <= i)%Z ->
   findIndexFrom p l i = (-1)%Z \/
   exists pre x post,
     l = pre ++ x :: post /\ p x = true /\
     Forall (fun y => p y = false) pre /\
     findIndexFrom p l i = (i + Z.of_nat (length pre))%Z).
Proof.
  revert i. induction l as [|x l IH]; intros i; simpl.
  - split; [done|]. intros _. by left.
  - destruct (p x) eqn:Hx.
    + split; [lia|]. intros Hi. right. exists [], x, l. simpl.
      split_and!; try done. lia.
    + destruct (IH (i + 1)%Z) as [IH1 IH2]. split.
      * intros [H Hi]. apply Forall_cons. split; [done|]. apply IH1.
        split; [done|lia].
      * intros Hi. destruct IH2 as [H|(pre & y & post & -> & Hy & Hpre & H)];
          [lia|by left|].
        right. exists (x :: pre), y, post. simpl. split_and!; try done.
        -- by apply Forall_cons.
        -- rewrite H. lia.
Qed.

(** X27. [findHeaderIndex] returns -1 or the position of the first header whose
    simplified text is the simplified target, itself not empty; it returns
    -1 exactly when the simplified target is empty or no header matches. *)
Theorem findHeaderIndex_spec headers target :
  let r := findHeaderIndex headers target in
  (r = (-1)%Z /\
   (simplifyHeader target = "" \/
    Forall (fun h => simplifyHeader h <> simplifyHeader target) headers))
  \/
  (exists pre h post,
     headers = pre ++ h :: post /\ r = Z.of_nat (length pre) /\
     simplifyHeader target <> "" /\
     simplifyHeader h = simplifyHeader target /\
     Forall (fun h' => simplifyHeader h' <> simplifyHeader target) pre).
Proof.
  unfold findHeaderIndex, truthy. simpl.
  destruct (String.eqb_spec (simplifyHeader target) "") as [E|E]; simpl.
  { left. split; [done|]. by left. }
  set (p := fun h => _).
  assert (Hp : forall h, p h = false <-> simplifyHeader h <> simplifyHeader target).
  { intros h. unfold p.
    destruct (String.eqb_spec (simplifyHeader h) (simplifyHeader target))
      as [E'|E'].
    - rewrite E'. destruct (String.eqb_spec (simplifyHeader target) "");
        [done|]. simpl. split; [done|]. by intros [].
    - rewrite andb_false_r. done. }
  destruct (findIndexFrom_spec p headers 0) as [H1 H2].
  destruct (H2 ltac:(lia)) as [Hm|(pre & h & post & -> & Hh & Hpre & Hr)].
  - left. split; [done|]. right.
    eapply Forall_impl; [apply H1; split; [done|lia]|].
    intros h. apply Hp.
  - right. exists pre, h, post. split_and!; try done.
    + destruct (String.eqb_spec (simplifyHeader h) (simplifyHeader target))
        as [E'|E']; [done|].
      apply Hp in E'. congruence.
    + eapply Forall_impl; [exact Hpre|]. intros h'. apply Hp.
Qed.

Lemma isWhiteSpace_not_alnum c : isWhiteSpace c = true -> isAlnum c = false.
Proof.
  unfold isWhiteSpace, isAlnum. generalize (nat_of_ascii c). intros n H.
  apply orb_true_iff in H as [[H1 H2]%andb_true_iff|H].
  - apply Nat.leb_le in H1, H2.
    destruct (Nat.leb_spec 48 n), (Nat.leb_spec 65 n), (Nat.leb_spec 97 n);
      simpl; try done; lia.
  - apply Nat.eqb_eq in H. by subst n.
Qed.

Lemma charToLower_whitespace c : isWhiteSpace c = true -> charToLower c = c.
Proof.
  unfold isWhiteSpace, charToLower. intros H.
  destruct (Nat.leb_spec 65 (nat_of_ascii c)); [|done].
  apply orb_true_iff in H as [[H1 H2]%andb_true_iff|H].
  - apply Nat.leb_le in H2. lia.
  - apply Nat.eqb_eq in H. lia.
Qed.

Lemma simplify_whitespace_head c s :
  isWhiteSpace c = true ->
  removeChars (fun c => negb (isAlnum c)) (toLowerCase (String c s))
  = removeChars (fun c => negb (isAlnum c)) (toLowerCase s).
Proof.
  intros H. unfold toLowerCase. simpl.
  by rewrite (charToLower_whitespace c H), (isWhiteSpace_not_alnum c H).
Qed.

Lemma simplifyHeader_trimStart s : simplifyHeader (trimStart s) = simplifyHeader s.
Proof.
  unfold simplifyHeader. induction s as [|c s IH]; [done|]. simpl trimStart.
  destruct (isWhiteSpace c) eqn:Hc; [|done].
  by rewrite IH, simplify_whitespace_head.
Qed.

Lemma simplifyHeader_trimEnd s : simplifyHeader (trimEnd s) = simplifyHeader s.
Proof.
  unfold simplifyHeader. induction s as [|c s IH]; [done|]. simpl trimEnd.
  destruct (isWhiteSpace c) eqn:Hc; simpl andb.
  - destruct (String.eqb_spec (trimEnd s) "") as [E|E].
    + rewrite simplify_whitespace_head by done. rewrite <- IH, E. done.
    + rewrite !simplify_whitespace_head by done. done.
  - unfold toLowerCase in *. simpl. by rewrite IH.
Qed.

Lemma charToLower_idem c : charToLower (charToLower c) = charToLower c.
Proof.
  destruct ((65 <=? nat_of_ascii c)%nat && (nat_of_ascii c <=? 90)%nat) eqn:H.
  - assert (E : charToLower c = ascii_of_nat (nat_of_ascii c + 32))
      by (unfold charToLower; by rewrite H).
    apply andb_true_iff in H as [H1 H2]. apply Nat.leb_le in H1, H2.
    rewrite E. unfold charToLower. rewrite nat_ascii_embedding by lia.
    destruct (Nat.leb_spec (nat_of_ascii c + 32) 90); [lia|].
    by rewrite andb_false_r.
  - assert (E : charToLower c = c) by (unfold charToLower; by rewrite H).
    by rewrite !E.
Qed.

Lemma toLowerCase_idem s : toLowerCase (toLowerCase s) = toLowerCase s.
Proof.
  unfold toLowerCase. induction s as [|c s IH]; [done|]. simpl.
  by rewrite charToLower_idem, IH.
Qed.

Lemma simplifyHeader_normalized h :
  simplifyHeader (toLowerCase (trim h)) = simplifyHeader h.
Proof.
  unfold simplifyHeader at 1. rewrite toLowerCase_idem.
  fold (simplifyHeader (trim h)). unfold trim.
  by rewrite simplifyHeader_trimEnd, simplifyHeader_trimStart.
Qed.

Lemma findIndexFrom_map {A B} (f : A -> B) (p : B -> bool) l i :
  findIndexFrom p (map f l) i = findIndexFrom (fun x => p (f x)) l i.
Proof.
  revert i. induction l as [|x l IH]; intros i; simpl; [done|].
  by rewrite IH.
Qed.

Lemma findIndexFrom_ext {A} (p q : A -> bool) l i :
  (forall x, p x = q x) -> findIndexFrom p l i = findIndexFrom q l i.
Proof.
  intros H. revert i. induction l as [|x l IH]; intros i; simpl; [done|].
  by rewrite H, IH.
Qed.

(** X28. Header matching ignores case, surrounding white space and punctuation:
    normalizing the headers first does not change the index found. *)
Theorem findHeaderIndex_normalizeHeaders headers target :
  findHeaderIndex (normalizeHeaders headers) target
  = findHeaderIndex headers target.
Proof.
  unfold findHeaderIndex, normalizeHeaders.
  destruct (negb (truthy (simplifyHeader target))); [done|].
  rewrite findIndexFrom_map. apply findIndexFrom_ext. intros h. simpl.
  by rewrite simplifyHeader_normalized.
Qed.

Lemma searchRows_None p rows i :
  searchRows p rows i = None <-> Forall (fun r => p r = false) rows.
Proof.
  revert i. induction rows as [|row rows IH]; intros i; simpl.
  - split; [intros _; apply Forall_nil_2 | done].
  - destruct (p row) eqn:Hp.
    + split; [done|]. intros [? _]%Forall_cons. congruence.
    + rewrite IH, Forall_cons. tauto.
Qed.

Lemma searchRows_Some p rows i j row :
  searchRows p rows i = Some (j, row) ->
  exists pre post,
    rows = pre ++ row :: post /\ j = i + length pre /\ p row = true /\
    Forall (fun r => p r = false) pre.
Proof.
  revert i. induction rows as [|r rows IH]; intros i; simpl; [done|].
  destruct (p r) eqn:Hp.
  - intros [= -> ->]. exists [], rows. simpl. split_and!; (done || lia).
  - intros (pre & post & -> & -> & Hrow & Hpre)%IH.
    exists (r :: pre), post. simpl.
    split_and!; try done; try lia. by apply Forall_cons.
Qed.

Lemma hasContent_isBlankRow row : hasContent row = negb (isBlankRow row).
Proof.
  unfold hasContent, isBlankRow. induction row as [|c row IH]; [done|].
  simpl. rewrite IH. by destruct (String.eqb (trim c) ""), (forallb _ row).
Qed.

Lemma take_min_length {A} (l : list A) n : take (min (length l) n) l = take n l.
Proof.
  destruct (Nat.le_gt_cases (length l) n) as [H|H].
  - rewrite Nat.min_l by done. by rewrite !take_ge.
  - rewrite Nat.min_r by lia. done.
Qed.

Lemma lookup_prefix_of_take {A} (l pre post : list A) x n j y :
  take n l = pre ++ x :: post -> j <= length pre ->
  l !! j = Some y -> (pre ++ [x]) !! j = Some y /\ j < n.
Proof.
  intros Ht Hj Hy.
  assert (Hlen : length pre < n).
  { assert (length (take n l) <= n) by (rewrite length_take; lia).
    rewrite Ht, length_app in H. simpl in H. lia. }
  assert (Hjn : j < n) by lia. split; [|done].
  rewrite <- (lookup_take_lt l n j) in Hy by done.
  rewrite Ht in Hy. replace (pre ++ x :: post) with ((pre ++ [x]) ++ post) in Hy
    by (by rewrite <- app_assoc).
  rewrite lookup_app_l in Hy; [done|]. rewrite length_app. simpl. lia.
Qed.

(** X29. When the header search succeeds, the row returned lies within the
    first ten rows at the index returned, it is not blank, and no earlier
    row looks like a header; it is the first row that looks like a header
    (not blank, at least three expected headers recognized) or, when none
    of the first ten rows does, the first row that is not blank. *)
Theorem findHeaderRow_resolved json headers idx :
  findHeaderRow json = inr (headers, idx) ->
  idx < MAX_HEADER_SEARCH_ROWS /\ json !! idx = Some headers /\
  isBlankRow headers = false /\
  (forall j row, j < idx -> json !! j = Some row -> looksLikeHeader row = false) /\
  (looksLikeHeader headers = true \/
   (forall j row, j < MAX_HEADER_SEARCH_ROWS -> json !! j = Some row ->
                  looksLikeHeader row = false) /\
   (forall j row, j < idx -> json !! j = Some row -> isBlankRow row = true)).
Proof.
  unfold findHeaderRow. destruct (length json =? 0)%nat; [done|].
  rewrite take_min_length.
  set (rows := take MAX_HEADER_SEARCH_ROWS json).
  assert (Hpos : forall pre x post j y (q : list string -> Prop),
            rows = pre ++ x :: post -> Forall q pre ->
            j < length pre -> json !! j = Some y -> q y).
  { intros pre x post j y q Hrows Hq Hj Hy.
    destruct (lookup_prefix_of_take json pre post x _ j y Hrows) as [Hl _];
      [lia|done|].
    rewrite lookup_app_l in Hl by done.
    by apply (Forall_lookup_1 _ _ _ _ Hq Hl). }
  assert (Hat : forall pre x post, rows = pre ++ x :: post ->
            length pre < MAX_HEADER_SEARCH_ROWS /\ json !! length pre = Some x).
  { intros pre x post Hrows.
    assert (Hlen : length pre < MAX_HEADER_SEARCH_ROWS).
    { assert (length rows <= MAX_HEADER_SEARCH_ROWS)
        by (unfold rows; rewrite length_take; lia).
      rewrite Hrows, length_app in H. simpl in H. lia. }
    split; [done|].
    rewrite <- (lookup_take_lt json MAX_HEADER_SEARCH_ROWS) by done.
    fold rows. rewrite Hrows. by rewrite list_lookup_middle. }
  destruct (searchRows looksLikeHeader rows 0) as [[j row]|] eqn:E1.
  - intros [= <- <-].
    apply searchRows_Some in E1 as (pre & post & Hrows & -> & Hrow & Hpre).
    simpl. destruct (Hat _ _ _ Hrows) as [Hlt Hlk]. split_and!; try done.
    + unfold looksLikeHeader in Hrow.
      apply andb_true_iff in Hrow as [Hb _]. by apply negb_true_iff.
    + intros j r Hj Hr.
      by apply (Hpos pre row post j r (fun y => looksLikeHeader y = false)).
    + by left.
  - apply searchRows_None in E1.
    destruct (searchRows hasContent rows 0) as [[j row]|] eqn:E2; [|done].
    intros [= <- <-].
    apply searchRows_Some in E2 as (pre & post & Hrows & -> & Hrow & Hpre).
    simpl. destruct (Hat _ _ _ Hrows) as [Hlt Hlk].
    rewrite hasContent_isBlankRow in Hrow. apply negb_true_iff in Hrow.
    assert (Hnone : forall j r, j < MAX_HEADER_SEARCH_ROWS ->
              json !! j = Some r -> looksLikeHeader r = false).
    { intros j r Hj Hr.
      rewrite <- (lookup_take_lt json MAX_HEADER_SEARCH_ROWS) in Hr by done.
      by apply (Forall_lookup_1 _ _ _ _ E1 Hr). }
    split_and!; try done.
    + intros j r Hj Hr. apply (Hnone j r); [lia|done].
    + right. split; [done|]. intros j r Hj Hr.
      apply (Hpos pre row post j r (fun y => isBlankRow y = true) Hrows);
        try done.
      eapply Forall_impl; [exact Hpre|]. intros y Hy. simpl in Hy.
      rewrite hasContent_isBlankRow in Hy. by apply negb_false_iff.
Qed.

Lemma findHeaderRow_resolved_witness :
  let json := [sheetTitle; sheetBlank; sheetHeader; sheetData] in
  2 < MAX_HEADER_SEARCH_ROWS /\ json !! 2 = Some sheetHeader /\
  isBlankRow sheetHeader = false /\
  (forall j row, j < 2 -> json !! j = Some row -> looksLikeHeader row = false) /\
  (looksLikeHeader sheetHeader = true \/
   (forall j row, j < MAX_HEADER_SEARCH_ROWS -> json !! j = Some row ->
                  looksLikeHeader row = false) /\
   (forall j row, j < 2 -> json !! j = Some row -> isBlankRow row = true)).
Proof.
  apply (findHeaderRow_resolved [sheetTitle; sheetBlank; sheetHeader; sheetData]
           sheetHeader 2).
  reflexivity.
Defined.

(** X30. The header search fails exactly when every one of the first ten rows is
    blank (an empty sheet included). *)
Theorem findHeaderRow_rejected json :
  (exists msg, findHeaderRow json = inl msg) <->
  Forall (fun row => isBlankRow row = true) (take MAX_HEADER_SEARCH_ROWS json).
Proof.
  unfold findHeaderRow.
  destruct json as [|row0 json0] eqn:Ej.
  { simpl. split; [intros _; apply Forall_nil_2 | by eexists]. }
  rewrite <- Ej. replace (length json =? 0)%nat with false by (by subst json).
  rewrite take_min_length.
  set (rows := take MAX_HEADER_SEARCH_ROWS json).
  destruct (searchRows looksLikeHeader rows 0) as [[j row]|] eqn:E1.
  - split; [by intros [? ?]|]. intros Hall.
    apply searchRows_Some in E1 as (pre & post & Hrows & _ & Hrow & _).
    rewrite Hrows in Hall. apply Forall_app in Hall as [_ Hall].
    apply Forall_cons in Hall as [Hb _].
    unfold looksLikeHeader in Hrow. by rewrite Hb in Hrow.
  - destruct (searchRows hasContent rows 0) as [[j row]|] eqn:E2.
    + split; [by intros [? ?]|]. intros Hall.
      apply searchRows_Some in E2 as (pre & post & Hrows & _ & Hrow & _).
      rewrite Hrows in Hall. apply Forall_app in Hall as [_ Hall].
      apply Forall_cons in Hall as [Hb _].
      rewrite hasContent_isBlankRow, Hb in Hrow. done.
    + split; [|by eexists]. intros _.
      apply searchRows_None in E2.
      eapply Forall_impl; [exact E2|]. intros y Hy. simpl in Hy.
      rewrite hasContent_isBlankRow in Hy. by apply negb_false_iff.
Qed.

Example header_search_example :
  findHeaderRow [sheetTitle; sheetBlank; sheetHeader; sheetData]
  = inr (sheetHeader, 2) /\
  foundHeaders sheetHeader
  = ["gstin of supplier"; "invoice number"; "invoice date"].
Proof. split; reflexivity. Qed.

(* ===================================================================== *)
(** ** Normalization of the key components                                *)
(* ===================================================================== *)

Lemma isWhiteSpace_charToUpper c : isWhiteSpace (charToUpper c) = isWhiteSpace c.
Proof.
  destruct ((97 <=? nat_of_ascii c)%nat && (nat_of_ascii c <=? 122)%nat) eqn:H.
  - assert (E : charToUpper c = ascii_of_nat (nat_of_ascii c - 32))
      by (unfold charToUpper; by rewrite H).
    apply andb_true_iff in H as [H1 H2]. apply Nat.leb_le in H1, H2.
    rewrite E. unfold isWhiteSpace. rewrite nat_ascii_embedding by lia.
    destruct (Nat.leb_spec (nat_of_ascii c - 32) 13),
      (Nat.leb_spec (nat_of_ascii c) 13),
      (Nat.eqb_spec (nat_of_ascii c - 32) 32),
      (Nat.eqb_spec (nat_of_ascii c) 32); try lia;
      by rewrite ?andb_false_r.
  - assert (E : charToUpper c = c) by (unfold charToUpper; by rewrite H).
    by rewrite E.
Qed.

Lemma charToUpper_idem c : charToUpper (charToUpper c) = charToUpper c.
Proof.
  destruct ((97 <=? nat_of_ascii c)%nat && (nat_of_ascii c <=? 122)%nat) eqn:H.
  - assert (E : charToUpper c = ascii_of_nat (nat_of_ascii c - 32))
      by (unfold charToUpper; by rewrite H).
    apply andb_true_iff in H as [H1 H2]. apply Nat.leb_le in H1, H2.
    rewrite E. unfold charToUpper. rewrite nat_ascii_embedding by lia.
    destruct (Nat.leb_spec 97 (nat_of_ascii c - 32)); [lia|done].
  - assert (E : charToUpper c = c) by (unfold charToUpper; by rewrite H).
    by rewrite !E.
Qed.

Lemma toUpperCase_idem s : toUpperCase (toUpperCase s) = toUpperCase s.
Proof.
  unfold toUpperCase. induction s as [|c s IH]; [done|]. simpl.
  by rewrite charToUpper_idem, IH.
Qed.

Lemma mapString_empty f s : String.eqb (mapString f s) "" = String.eqb s "".
Proof. by destruct s. Qed.

Lemma trimStart_toUpperCase s :
  trimStart (toUpperCase s) = toUpperCase (trimStart s).
Proof.
  unfold toUpperCase. induction s as [|c s IH]; [done|]. simpl.
  rewrite isWhiteSpace_charToUpper. by destruct (isWhiteSpace c).
Qed.

Lemma trimEnd_toUpperCase s :
  trimEnd (toUpperCase s) = toUpperCase (trimEnd s).
Proof.
  unfold toUpperCase. induction s as [|c s IH]; [done|]. simpl.
  rewrite isWhiteSpace_charToUpper, IH, mapString_empty.
  by destruct (isWhiteSpace c && String.eqb (trimEnd s) "").
Qed.

Lemma trimEnd_idem s : trimEnd (trimEnd s) = trimEnd s.
Proof.
  induction s as [|c s IH]; [done|]. simpl.
  destruct (isWhiteSpace c && String.eqb (trimEnd s) "") eqn:E; [done|].
  simpl. by rewrite IH, E.
Qed.

Lemma trimStart_trimEnd_trimStart s :
  trimStart (trimEnd (trimStart s)) = trimEnd (trimStart s).
Proof.
  induction s as [|c s IH]; [done|]. simpl.
  destruct (isWhiteSpace c) eqn:Hc; [done|]. simpl.
  rewrite Hc. simpl. by rewrite Hc.
Qed.

Lemma trim_idem s : trim (trim s) = trim s.
Proof.
  unfold trim. by rewrite trimStart_trimEnd_trimStart, trimEnd_idem.
Qed.

Lemma normalized_idem o : normalized (normalized o) = normalized o.
Proof.
  destruct o as [s|]; [|done]. simpl. f_equal. unfold trim.
  rewrite trimStart_toUpperCase, trimEnd_toUpperCase, toUpperCase_idem.
  fold (trim s). fold (trim (trim s)). by rewrite trim_idem.
Qed.

(** X2. The match key ignores case and surrounding white space: a record whose
    GSTIN and invoice number are replaced by their trimmed, upper-cased
    forms keeps its key. *)
Theorem createKey_of_normalized_fields item :
  createKey
    (mkInvoiceData (_originalRow item) (_normalizedHeaders item)
       (normalized (GSTIN item)) (Name item) (normalized (Invoice_no item))
       (Invoice_date item) (taxable_value item))
  = createKey item.
Proof. unfold createKey. simpl. by rewrite !normalized_idem. Qed.

(* ===================================================================== *)
(** ** What is left over cannot be paired                                 *)
(* ===================================================================== *)

Lemma pass2_leftovers tz pool As : forall st,
  (forall a i b, a ∈ finalUnmatchedA st -> i ∈ unmatchedBIndexes st ->
                 pool !! i = Some b -> ~ eligible a b) ->
  let st' := fold_left (pass2Step tz pool) As st in
  forall a i b, a ∈ finalUnmatchedA st' -> i ∈ unmatchedBIndexes st' ->
                pool !! i = Some b -> ~ eligible a b.
Proof.
  induction As as [|x As IH]; intros st Hinv; simpl; [done|].
  apply IH.
  destruct (pass2Step_cases tz pool st x) as [(bm & Hbm & ->)|[Hnone ->]];
    simpl.
  - intros a i b Ha Hi. apply Hinv; [done|].
    unfold setDelete in Hi. by apply list_elem_of_filter in Hi as [_ ?].
  - intros a i b [Ha| ->%list_elem_of_singleton]%elem_of_app Hi Hb.
    + by apply (Hinv a i b).
    + pose proof (findBestMatch_firstBest x pool (unmatchedBIndexes st)) as H.
      rewrite Hnone in H. by apply (H i b).
Qed.

Lemma itemsAt_elem pool indexes b :
  b ∈ itemsAt pool indexes -> exists i, i ∈ indexes /\ pool !! i = Some b.
Proof. unfold itemsAt. by rewrite list_elem_of_omap. Qed.

(** X16. A left-over record of A and a left-over record of B could not have been
    paired: their match keys differ, and the record of B is not an eligible
    fuzzy candidate for the record of A. *)
Theorem leftovers_cannot_pair tz A B a b :
  onlyInA a ∈ reconcileFiles tz A B ->
  onlyInB b ∈ reconcileFiles tz A B ->
  createKey a <> createKey b /\ ~ eligible a b.
Proof.
  intros Ha Hb.
  destruct (reconcile_accounting tz A B) as (Heq & HP & _ & _).
  rewrite Heq in Ha, Hb. clear Heq.
  set (st1 := pass1 tz A B) in *. set (pool := mapValues (mapB st1)) in *.
  set (st2 := pass2 tz st1) in *.
  assert (Hnot : forall r, Paired tz r -> is_Some (dataA r) /\ is_Some (dataB r)).
  { intros r [(x & y & ->)|(x & y & -> & _)]; by split. }
  assert (Ha' : a ∈ finalUnmatchedA st2).
  { rewrite !elem_of_app in Ha. destruct Ha as [Ha|[Ha|Ha]].
    - apply (proj1 (Forall_forall _ _) HP), Hnot in Ha as [_ [? ?]]. done.
    - apply list_elem_of_fmap in Ha as (x & [= _ ->] & Hx). done.
    - apply list_elem_of_fmap in Ha as (x & [=] & _). }
  assert (Hb' : b ∈ itemsAt pool (unmatchedBIndexes st2)).
  { rewrite !elem_of_app in Hb. destruct Hb as [Hb|[Hb|Hb]].
    - apply (proj1 (Forall_forall _ _) HP), Hnot in Hb as [[? ?] _]. done.
    - apply list_elem_of_fmap in Hb as (x & [=] & _).
    - apply list_elem_of_fmap in Hb as (x & [= _ ->] & Hx). done. }
  apply itemsAt_elem in Hb' as (i & Hi & Hlk).
  destruct (pass1_structure tz A (mkPass1 [] [] (buildMapB B)))
    as (_ & u & _ & Hu & _ & _ & Hsu & Hwf & Hun);
    [apply wfMap_buildMapB | apply Forall_nil_2 |].
  fold (pass1 tz A B) in Hu, Hwf, Hun. fold st1 in Hu, Hwf, Hun.
  destruct (pass2_structure tz pool (unmatchedA st1)
              (mkPass2 (results1 st1) [] (seq 0 (length pool))))
    as (_ & f & _ & Hf & _ & _ & Hsf).
  { intros x y Hx Hy Heq.
    apply (proj1 (Forall_forall _ _) Hun) in Hx.
    apply mapGet_None in Hx. apply Hx.
    unfold pool, mapValues in Hy.
    apply list_elem_of_fmap in Hy as ([k v] & -> & Hin).
    destruct Hwf as [_ Hall].
    apply (proj1 (Forall_forall _ _) Hall) in Hin as Hkv. simpl in Hkv.
    destruct Hkv as [Hkv _]. simpl in Heq. rewrite Heq, Hkv.
    apply list_elem_of_fmap. by exists (k, v). }
  simpl in Hf. change (finalUnmatchedA st2 = f) in Hf.
  split.
  - assert (Hau : a ∈ unmatchedA st1).
    { rewrite Hf in Ha'. by eapply elem_of_sublist. }
    apply (proj1 (Forall_forall _ _) Hun) in Hau. apply mapGet_None in Hau.
    intros Heq. apply Hau.
    apply list_elem_of_lookup_2 in Hlk. unfold pool, mapValues in Hlk.
    apply list_elem_of_fmap in Hlk as ([k v] & -> & Hin).
    destruct Hwf as [_ Hall].
    apply (proj1 (Forall_forall _ _) Hall) in Hin as Hkv. simpl in Hkv.
    destruct Hkv as [Hkv _]. simpl in Heq. rewrite Heq, Hkv.
    apply list_elem_of_fmap. by exists (k, v).
  - apply (pass2_leftovers tz pool (unmatchedA st1)
             (mkPass2 (results1 st1) [] (seq 0 (length pool)))
             ltac:(simpl; intros ? ? ? H; by apply elem_of_nil in H)
             a i b); done.
Qed.

Lemma leftovers_cannot_pair_witness :
  createKey recNew <> createKey recAcme /\ ~ eligible recNew recAcme.
Proof.
  apply (leftovers_cannot_pair utc [recNew] [recAcme]); vm_compute;
    [left | right; left].
Defined.
